(** * Thread of Ariadne: embedding cache and similarity ranking

    A shallow embedding of the core of [src/main.ts] (class
    [ThreadOfAriadne]): the string hash, the local bag-of-tokens embedder,
    the remote embedder client, the embedding cache, cosine similarity and
    the [findSimilarNotes] orchestration, with the properties the
    specification states about them.

    Conventions.
    - A JavaScript [number] that only ever holds an integer (a hash, an array
      index, a millisecond timestamp, a day count) is a [Z]; the 32-bit
      wrap-around of the bit operators is written out.
    - A [number] that holds a vector component or a similarity score is an
      IEEE-754 binary64 value, Rocq's primitive [float], whose operations are
      the ones JavaScript performs.
    - A JavaScript string is the list of its UTF-16 code units.
    - Methods that touch the plugin, the vault, the clock or the network are
      written in a state-and-exception monad over an explicit [state]. *)

From Stdlib Require Import ZArith List Bool Lia String Ascii.
From Stdlib Require Import Floats.
From stdpp Require Import base option list sorting gmap.

Local Open Scope Z_scope.

(** ** JavaScript strings *)

(** UTF-16 code units, [0 .. 65535]. *)
Abbreviation jsstring := (list Z).

(** [str "abc"]: the code units of an ASCII literal. *)
Definition str (s : string) : jsstring :=
  map (fun c => Z.of_N (N_of_ascii c)) (list_ascii_of_string s).

Definition jsstring_eqb (a b : jsstring) : bool := bool_decide (a = b).

(** [s.startsWith(p)] *)
Fixpoint startsWith (s p : jsstring) : bool :=
  match p, s with
  | [], _ => true
  | _ :: _, [] => false
  | c :: p', d :: s' => (c =? d) && startsWith s' p'
  end.

(** ** 32-bit integer operators *)

(** [ToInt32]: wrap an integer into [-2^31 .. 2^31 - 1]. *)
Definition to_int32 (z : Z) : Z := (z + 2 ^ 31) mod 2 ^ 32 - 2 ^ 31.

(** [x << n] *)
Definition js_shl (x n : Z) : Z := to_int32 (Z.shiftl (to_int32 x) n).

(** [x & y] *)
Definition js_and (x y : Z) : Z := to_int32 (Z.land (to_int32 x) (to_int32 y)).

(** [x % m] keeps the sign of the dividend. *)
Definition js_rem (x m : Z) : Z := Z.rem x m.

(** ** simpleHash *)

(** One round of the loop body:
    [hash = ((hash << 5) - hash) + char; hash = hash & hash]. *)
Definition hash_step (hash char : Z) : Z :=
  let hash := (js_shl hash 5 - hash) + char in
  js_and hash hash.

(** [simpleHash(str)]: the loop runs over the code units from left to right,
    starting from [0]; [Math.abs] is taken on the number, not on a 32-bit
    integer. *)
Definition simpleHash (s : jsstring) : Z :=
  Z.abs (fold_left hash_step s 0).

(** ** Outcomes of fallible code *)

Inductive error : Type :=
| TypeError               (* a [for ... of] over a value that is not iterable,
                             or a call of a value that is not a function *)
| MissingApiKey           (* [new Error('Missing API key')] *)
| FetchRejected           (* [fetch] rejected: no response *)
| ApiError (status : Z)   (* [!response.ok] *)
| InvalidResponseFormat   (* [new Error('Invalid API response format')] *)
| ReadRejected            (* [vault.read] rejected: the file is gone *)
| OutOfBoundsWrite (i : Z).
(** [OutOfBoundsWrite] is not a JavaScript exception: an array write outside
    [0 .. length - 1] would silently add a property.  The model stops there
    instead, so that "no write is out of bounds" is the statement that this
    outcome never occurs. *)

Inductive res (A : Type) : Type :=
| Ok (a : A)
| Err (e : error).
Arguments Ok {A} a.
Arguments Err {A} e.

#[global] Instance res_ret : MRet res := fun _ a => Ok a.
#[global] Instance res_bind : MBind res := fun _ _ f m =>
  match m with
  | Ok a => f a
  | Err e => Err e
  end.

(** ** Plain objects used as dictionaries *)

(** The own properties of an object, in creation order. *)
Abbreviation object A := (list (jsstring * A)).

Fixpoint own {A} (o : object A) (k : jsstring) : option A :=
  match o with
  | [] => None
  | (k', a) :: o' => if jsstring_eqb k' k then Some a else own o' k
  end.

(** [o[k] = a]: overwrite in place, or append a new property. *)
Fixpoint set_prop {A} (o : object A) (k : jsstring) (a : A) : object A :=
  match o with
  | [] => [(k, a)]
  | (k', a') :: o' =>
      if jsstring_eqb k' k then (k', a) :: o' else (k', a') :: set_prop o' k a
  end.

(** A property read [o[k]] on an object created by [{}] or by an object
    literal looks at the own properties first and then at [Object.prototype].
    Every key read in this program is a token (a run of [a-z0-9] or a single
    CJK code unit) or an entry of the concept table; the one name of
    [Object.prototype] such a key can spell is [constructor], whose value is
    the function [Object]. *)
Inductive prop (A : Type) : Type :=
| Own (a : A)
| Inherited      (* a function of [Object.prototype]: truthy, not a number,
                    not iterable *)
| Undefined.
Arguments Own {A} a.
Arguments Inherited {A}.
Arguments Undefined {A}.

Definition get_prop {A} (o : object A) (k : jsstring) : prop A :=
  match own o k with
  | Some a => Own a
  | None => if jsstring_eqb k (str "constructor") then Inherited else Undefined
  end.

(** The value of a canonical array-index key (["0"], ["7"], ["2024"], not
    ["007"]), below [2^32 - 1]. *)
Definition is_digit (c : Z) : bool := (48 <=? c) && (c <=? 57).

Definition array_index (k : jsstring) : option Z :=
  match k with
  | [] => None
  | c :: k' =>
      if forallb is_digit k && (negb (c =? 48) || bool_decide (k' = [])) then
        let n := fold_left (fun n d => 10 * n + (d - 48)) k 0 in
        if n <? 2 ^ 32 - 1 then Some n else None
      else None
  end.

(** Stable insertion sort; [before x y] says that [x] must come before an
    earlier element [y]. *)
Fixpoint insert_by {A} (before : A -> A -> bool) (x : A) (l : list A) : list A :=
  match l with
  | [] => [x]
  | y :: l' => if before x y then x :: y :: l' else y :: insert_by before x l'
  end.

Definition sort_by {A} (before : A -> A -> bool) (l : list A) : list A :=
  fold_left (fun sorted x => insert_by before x sorted) l [].

(** [Object.keys(o)]: array-index keys in ascending numeric order, then the
    other keys in creation order. *)
Definition Object_keys {A} (o : object A) : list jsstring :=
  let ks := map fst o in
  let idx := filter (fun k => is_Some (array_index k)) ks in
  let others := filter (fun k => ¬ is_Some (array_index k)) ks in
  sort_by (fun a b => bool_decide (default 0 (array_index a) < default 0 (array_index b))) idx
  ++ others.

(** ** The local embedder *)

Definition in_range (lo hi c : Z) : bool := (lo <=? c) && (c <=? hi).

(** The class [a-z0-9]. *)
Definition is_latin (c : Z) : bool := in_range 97 122 c || in_range 48 57 c.

(** The class [\u4E00-\u9FFF\u3040-\u309F\u30A0-\u30FF\uAC00-\uD7AF]. *)
Definition is_cjk (c : Z) : bool :=
  in_range 19968 40959 c || in_range 12352 12447 c
  || in_range 12448 12543 c || in_range 44032 55215 c.

(** The class [\u4E00-\u9FFF]. *)
Definition is_chinese (c : Z) : bool := in_range 19968 40959 c.

(** [text.toLowerCase()], as far as the tokenizer can tell: [A-Z] go to
    [a-z], the Kelvin sign U+212A goes to [k] and U+0130 goes to [i] followed
    by U+0307.  Every other code unit is lower-cased by JavaScript to code
    units outside [a-z0-9] (or left alone); it is left alone here, which the
    match of [[a-z0-9]+] cannot distinguish. *)
Definition toLowerCase (s : jsstring) : jsstring :=
  flat_map (fun c =>
    if in_range 65 90 c then [c + 32]
    else if c =? 8490 then [107]
    else if c =? 304 then [105; 775]
    else [c]) s.

(** [s.match(/[...]+/g) || []]: the maximal runs of units satisfying [p];
    [cur] is the run being read, in reverse. *)
Fixpoint match_runs (p : Z -> bool) (s cur : jsstring) : list jsstring :=
  match s with
  | [] => match cur with [] => [] | _ => [rev cur] end
  | c :: s' =>
      if p c then match_runs p s' (c :: cur)
      else match cur with
           | [] => match_runs p s' []
           | _ => rev cur :: match_runs p s' []
           end
  end.

(** [s.match(/[...]/g) || []]: each unit satisfying [p], as a one-unit string. *)
Definition match_units (p : Z -> bool) (s : jsstring) : list jsstring :=
  map (fun c => [c]) (filter (fun c => Is_true (p c)) s).

(** [/[...]/.test(token)] *)
Definition test (p : Z -> bool) (token : jsstring) : bool := existsb p token.

Definition tokenize (text : jsstring) : list jsstring :=
  let latinWords := match_runs is_latin (toLowerCase text) [] in
  let cjkChars := match_units is_cjk text in
  latinWords ++ cjkChars.

(** [x || 0] on numbers: [0] and [NaN] are falsy. *)
Definition or_zero (x : float) : float :=
  if ((x =? 0) || is_nan x)%float then 0%float else x.

(** [tokenFreq[token] = (tokenFreq[token] || 0) + 1].  For the token
    [constructor] on a fresh object the read finds the inherited function, and
    the sum is a string, not a number: [nan] stands for it.  It is never part
    of a result, because [addCrossLanguageFeatures] throws on that key. *)
Definition count_token (tokenFreq : object float) (token : jsstring) : object float :=
  set_prop tokenFreq token
    match get_prop tokenFreq token with
    | Own n => (or_zero n + 1)%float
    | Undefined => (0 + 1)%float
    | Inherited => nan
    end.

Definition count_tokens (tokens : list jsstring) : object float :=
  fold_left count_token tokens [].

(** [vector[i] += x] on the dense 200-element array. *)
Definition add_at (vector : list float) (i : Z) (x : float) : res (list float) :=
  if bool_decide (0 <= i < Z.of_nat (length vector)) then
    Ok (alter (fun v => (v + x)%float) (Z.to_nat i) vector)
  else Err (OutOfBoundsWrite i).

(** The slot of a token in the first loop of [getLocalEmbedding]: CJK tokens
    in the second half, the others in the first half. *)
Definition token_slot (token : jsstring) : Z :=
  if test is_cjk token then 100 + js_rem (simpleHash token) 100
  else js_rem (simpleHash token) 100.

(** [tokenFreq[token]] for a key of [tokenFreq]. *)
Definition freq (tokenFreq : object float) (token : jsstring) : float :=
  default nan (own tokenFreq token).

(** A [for] loop whose body may throw. *)
Fixpoint for_each {A S} (body : S -> A -> res S) (l : list A) (s : S) : res S :=
  match l with
  | [] => Ok s
  | a :: l' => s' ← body s a; for_each body l' s'
  end.

(** The table [commonConcepts] of [addCrossLanguageFeatures], as the source
    file spells it: each English word with its list of equivalents, given by
    their UTF-16 code units. *)
Definition commonConcepts : object (list jsstring) := [
  (str "time", [[202; 243; 8706; 200; 243; 165]; [202; 243; 8706]; [202; 243; 8226; 202; 250; 252]]);
  (str "day", [[194; 167; 169]; [202; 243; 8226]; [202; 243; 8226; 194; 8800; 234]]);
  (str "person", [[8240; 8747; 8747]; [8240; 8747; 8747; 194; 235; 242]; [8240; 8719; 8482; 8240; 8747; 8747]]);
  (str "work", [[194; 8721; 8226; 8240; 937; 250]; [203; 197; 229; 8240; 8719; 246]; [8240; 170; 170; 194; 228; 176]]);
  (str "book", [[8240; 960; 182]; [8240; 960; 182; 193; 177; 231]]);
  (str "food", [[200; 163; 252; 193; 226; 169]; [200; 163; 252; 194; 236; 197]; [200; 167; 234]]);
  (str "water", [[202; 8734; 165]; [202; 8734; 165; 194; 224; 220]]);
  (str "house", [[202; 224; 248; 194; 8800; 234]; [194; 198; 8706]; [8240; 937; 232; 194; 198; 214]]);
  (str "computer", [[193; 238; 181; 203; 209; 235]; [203; 198; 176; 193; 198; 243; 202; 250; 8747]]);
  (str "friend", [[202; 250; 227; 194; 232; 227]; [8240; 186; 244; 8240; 186; 165]]);
  (str "family", [[194; 198; 8706; 194; 8747; 8800]; [194; 198; 8706; 8240; 8747; 8747]]);
  (str "money", [[200; 237; 177]; [200; 225; 235; 200; 237; 177]; [203; 181; 209; 200; 225; 235]]);
  (str "school", [[194; 8800; 182; 202; 8224; 176]; [202; 8224; 176; 194; 245; 8800]]);
  (str "business", [[194; 239; 220; 8240; 8719; 246]; [193; 238; 252; 202; 209; 232]; [8240; 186; 197; 8240; 8719; 246]]);
  (str "city", [[194; 252; 233; 194; 8719; 199]; [194; 8719; 199]]);
  (str "country", [[194; 245; 937; 194; 198; 8706]; [194; 245; 937]]);
  (str "world", [[8240; 8719; 241; 193; 239; 229]; [194; 214; 174; 193; 234; 201]]);
  (str "health", [[194; 197; 8226; 194; 8747; 8721]; [8240; 248; 249; 194; 197; 8226]]);
  (str "history", [[194; 233; 220; 194; 232; 8804]; [194; 232; 8804]]);
  (str "future", [[202; 250; 8482; 202; 249; 8226]; [194; 8734; 220; 202; 249; 8226]]);
  (str "technology", [[202; 228; 196; 202; 250; 216]; [193; 223; 235; 202; 228; 196]]);
  (str "science", [[193; 223; 235; 194; 8800; 182]; [194; 8800; 182; 193; 223; 235]]);
  (str "art", [[203; 226; 8747; 202; 250; 216]; [193; 230; 233; 202; 250; 216]]);
  (str "music", [[200; 252; 8805; 8240; 960; 234]; [202; 245; 8804]]);
  (str "film", [[193; 238; 181; 194; 937; 177]; [194; 937; 177; 193; 226; 225]]);
  (str "love", [[193; 224; 177]; [193; 224; 177; 202; 201; 214]]);
  (str "problem", [[200; 243; 198; 200; 162; 242]; [200; 246; 230; 200; 162; 242]]);
  (str "solution", [[203; 223; 163; 194; 220; 8805; 202; 241; 960; 202; 176; 224]; [203; 223; 163; 194; 220; 8805]; [202; 241; 960; 202; 176; 224]]);
  (str "idea", [[202; 201; 8805; 202; 8805; 239]; [8240; 8719; 170; 202; 209; 232]; [202; 182; 199; 194; 248; 181]]);
  (str "information", [[8240; 248; 176; 202; 197; 216]; [203; 181; 209; 203; 198; 216]])
].

(** The loop that builds [chineseToEnglish] from a concept table:
    [if (!chineseToEnglish[zh]) chineseToEnglish[zh] = [];
     chineseToEnglish[zh].push(eng)]. *)
Definition reverse_entry (eng : jsstring) (c2e : object (list jsstring)) (zh : jsstring)
  : res (object (list jsstring)) :=
  match get_prop c2e zh with
  | Own l => Ok (set_prop c2e zh (l ++ [eng]))
  | Undefined => Ok (set_prop c2e zh [eng])
  | Inherited => Err TypeError   (* [Object.push] is not a function *)
  end.

Definition reverse_table (concepts : object (list jsstring)) : res (object (list jsstring)) :=
  for_each (fun c2e '(eng, zhArr) => for_each (reverse_entry eng) zhArr c2e) concepts [].

(** A condition [o[k]] is truthy unless the property is missing: arrays and
    functions are truthy. *)
Definition truthy {A} (p : prop A) : bool :=
  match p with
  | Undefined => false
  | _ => true
  end.

(** [for (const x of o[k]) body]: only an array can be iterated. *)
Definition for_of {A S} (p : prop (list A)) (body : S -> A -> res S) (s : S) : res S :=
  match p with
  | Own l => for_each body l s
  | _ => Err TypeError
  end.

(** The body of the last loop of [addCrossLanguageFeatures] for one token. *)
Definition cross_features (concepts c2e : object (list jsstring)) (tokenFreq : object float)
    (vector : list float) (token : jsstring) : res (list float) :=
  let isChinese := test is_chinese token in
  if isChinese && truthy (get_prop c2e token) then
    for_of (get_prop c2e token) (fun vector engEquiv =>
      let engHash := js_rem (simpleHash engEquiv) 100 in
      add_at vector engHash (freq tokenFreq token * 0.5)%float) vector
  else if negb isChinese && truthy (get_prop concepts token) then
    for_of (get_prop concepts token) (fun vector zhEquiv =>
      let zhHash := 100 + js_rem (simpleHash zhEquiv) 100 in
      add_at vector zhHash (freq tokenFreq token * 0.5)%float) vector
  else Ok vector.

(** [addCrossLanguageFeatures(vector, tokenFreq)] over a given concept table;
    the array is updated in place, so the updated array is the result. *)
Definition addCrossLanguageFeatures_with (concepts : object (list jsstring))
    (vector : list float) (tokenFreq : object float) : res (list float) :=
  c2e ← reverse_table concepts;
  for_each (cross_features concepts c2e tokenFreq) (Object_keys tokenFreq) vector.

Definition addCrossLanguageFeatures := addCrossLanguageFeatures_with commonConcepts.

(** [Math.sqrt(vector.reduce((sum, val) => sum + val * val, 0))] *)
Definition magnitude (vector : list float) : float :=
  sqrt (fold_left (fun sum val => sum + val * val)%float vector 0%float).

Definition normalize (vector : list float) : list float :=
  let m := magnitude vector in
  if (0 <? m)%float then map (fun v => v / m)%float vector else vector.

(** [getLocalEmbedding(text)] *)
Definition getLocalEmbedding_with (concepts : object (list jsstring)) (text : jsstring)
  : res (list float) :=
  let tokens := tokenize text in
  let tokenFreq := count_tokens tokens in
  let vector := repeat 0%float 200 in
  vector ← for_each (fun vector token =>
              add_at vector (token_slot token) (freq tokenFreq token))
            (Object_keys tokenFreq) vector;
  vector ← addCrossLanguageFeatures_with concepts vector tokenFreq;
  Ok (normalize vector).

Definition getLocalEmbedding := getLocalEmbedding_with commonConcepts.

(** ** Cosine similarity *)

(** The three accumulators of the loop of [cosineSimilarity]:
    [(dotProduct, normA, normB)]. *)
Definition cosine_step (acc : float * float * float) (xy : float * float)
  : float * float * float :=
  let '(dotProduct, normA, normB) := acc in
  let '(x, y) := xy in
  (dotProduct + x * y, normA + x * x, normB + y * y)%float.

(** [cosineSimilarity(a, b)]: past the length test the loop reads [a[i]] and
    [b[i]] for every [i < a.length = b.length]. *)
Definition cosineSimilarity (a b : list float) : float :=
  if negb (length a =? length b)%nat then 0%float
  else
    let '(dotProduct, normA, normB) :=
      fold_left cosine_step (combine a b) (0, 0, 0)%float in
    if ((normA =? 0) || (normB =? 0))%float then 0%float
    else (dotProduct / (sqrt normA * sqrt normB))%float.

(** ** Settings, files, cache and the host application *)

Record Settings : Type := {
  apiKey : jsstring;
  numSimilarNotes : Z;
  minSimilarityScore : float;
  ignoreFolders : list jsstring;
  cacheExpiration : Z;   (* days *)
  useGeminiEmbeddings : bool
}.

Definition DEFAULT_SETTINGS : Settings := {|
  apiKey := [];
  numSimilarNotes := 5;
  minSimilarityScore := 0x1.6666666666666p-1%float;   (* 0.7 *)
  ignoreFolders := [];
  cacheExpiration := 7;
  useGeminiEmbeddings := false
|}.

Record EmbeddingCacheItem : Type := {
  embedding : list float;
  timestamp : Z
}.

(** The fields of Obsidian's [TFile] that the plugin reads; [mtime] is
    [file.stat.mtime]. *)
Record TFile : Type := {
  path : jsstring;
  extension : jsstring;
  mtime : Z
}.

Record SimilarNoteResult : Type := {
  file : TFile;
  score : float
}.

(** What a call of [fetch] on the embedding endpoint comes to. *)
Inductive response : Type :=
| Rejected                          (* the promise rejects *)
| NotOk (status : Z)                (* [response.ok] is false *)
| Malformed                         (* a body that is not JSON, or one with no
                                       array at [data.embedding.values] *)
| Values (values : list float).     (* [data.embedding.values] *)

(** The host application as the plugin sees it during one run. *)
Record Host : Type := {
  dateNow : nat -> Z;
    (* the value of the n-th call of [Date.now()] *)
  getMarkdownFiles : list TFile;
    (* [app.vault.getMarkdownFiles()] *)
  vaultRead : jsstring -> option jsstring;
    (* [app.vault.read(file)], by path: the content, or a rejection *)
  fetchEmbedding : nat -> jsstring -> jsstring -> response
    (* the n-th [fetch]: API key and request text to response *)
}.

Inductive notice : Type :=
| NoticeNoActiveNote
| NoticeNoActiveFile
| NoticeFinding
| NoticeMissingKey
| NoticeApiError (status : Z)
| NoticeFallback
| NoticeError.

(** The plugin instance ([settings], [embeddings]) together with a record of
    what the run has asked for so far: how often it read the clock, called
    [fetch] and called [getEmbedding], which paths it read, which notices it
    raised. *)
Record state : Type := {
  settings : Settings;
  embeddings : gmap jsstring EmbeddingCacheItem;
  clockReads : nat;
  fetches : nat;
  embedCalls : nat;
  reads : list jsstring;
  notices : list notice
}.

Definition set_settings (s : Settings) (st : state) : state :=
  {| settings := s; embeddings := embeddings st;
     clockReads := clockReads st; fetches := fetches st; embedCalls := embedCalls st;
     reads := reads st; notices := notices st |}.

Definition set_embeddings (f : gmap jsstring EmbeddingCacheItem -> gmap jsstring EmbeddingCacheItem)
    (st : state) : state :=
  {| settings := settings st; embeddings := f (embeddings st);
     clockReads := clockReads st; fetches := fetches st; embedCalls := embedCalls st;
     reads := reads st; notices := notices st |}.

Definition tick_clock (st : state) : state :=
  {| settings := settings st; embeddings := embeddings st;
     clockReads := S (clockReads st); fetches := fetches st; embedCalls := embedCalls st;
     reads := reads st; notices := notices st |}.

Definition count_fetch (st : state) : state :=
  {| settings := settings st; embeddings := embeddings st;
     clockReads := clockReads st; fetches := S (fetches st); embedCalls := embedCalls st;
     reads := reads st; notices := notices st |}.

Definition count_embed (st : state) : state :=
  {| settings := settings st; embeddings := embeddings st;
     clockReads := clockReads st; fetches := fetches st; embedCalls := S (embedCalls st);
     reads := reads st; notices := notices st |}.

Definition log_read (p : jsstring) (st : state) : state :=
  {| settings := settings st; embeddings := embeddings st;
     clockReads := clockReads st; fetches := fetches st; embedCalls := embedCalls st;
     reads := p :: reads st; notices := notices st |}.

Definition log_notice (n : notice) (st : state) : state :=
  {| settings := settings st; embeddings := embeddings st;
     clockReads := clockReads st; fetches := fetches st; embedCalls := embedCalls st;
     reads := reads st; notices := n :: notices st |}.

(** ** The monad of methods: state and exceptions *)

Definition M (A : Type) : Type := state -> res A * state.

#[global] Instance M_ret : MRet M := fun _ a st => (Ok a, st).
#[global] Instance M_bind : MBind M := fun _ _ f m st =>
  match m st with
  | (Ok a, st') => f a st'
  | (Err e, st') => (Err e, st')
  end.

Definition throw {A} (e : error) : M A := fun st => (Err e, st).

(** [try { m } catch (error) { handler }] *)
Definition try_catch {A} (m : M A) (handler : error -> M A) : M A := fun st =>
  match m st with
  | (Ok a, st') => (Ok a, st')
  | (Err e, st') => handler e st'
  end.

Definition lift {A} (r : res A) : M A := fun st => (r, st).

Definition gets {A} (f : state -> A) : M A := fun st => (Ok (f st), st).

Definition modify (f : state -> state) : M unit := fun st => (Ok tt, f st).

(** [new Notice(...)] *)
Definition Notice (n : notice) : M unit := modify (log_notice n).

(** [Date.now()] *)
Definition Date_now (h : Host) : M Z := fun st =>
  (Ok (dateNow h (clockReads st)), tick_clock st).

(** [await this.app.vault.read(file)] *)
Definition vault_read (h : Host) (f : TFile) : M jsstring := fun st =>
  match vaultRead h (path f) with
  | Some content => (Ok content, log_read (path f) st)
  | None => (Err ReadRejected, log_read (path f) st)
  end.

(** [await fetch(url + key, body)] *)
Definition fetch (h : Host) (key text : jsstring) : M response := fun st =>
  (Ok (fetchEmbedding h (fetches st) key text), count_fetch st).

(** ** The cache sweep *)

(** The loop body of [cleanEmbeddingCache] for one entry of the iteration. *)
Definition clean_entry (now expiration : Z) (entry : jsstring * EmbeddingCacheItem)
    (m : gmap jsstring EmbeddingCacheItem) : gmap jsstring EmbeddingCacheItem :=
  if bool_decide (now - timestamp entry.2 > expiration) then delete entry.1 m else m.

(** The sweep over [this.embeddings.entries()]; deleting the entry being
    visited does not disturb the iteration of a [Map]. *)
Definition purge (now expiration : Z) (m : gmap jsstring EmbeddingCacheItem)
  : gmap jsstring EmbeddingCacheItem :=
  foldr (clean_entry now expiration) m (map_to_list m).

(** [cleanEmbeddingCache()] *)
Definition cleanEmbeddingCache (h : Host) : M unit :=
  now ← Date_now h;
  expiration ← gets (fun st => cacheExpiration (settings st) * 24 * 60 * 60 * 1000);
  modify (set_embeddings (purge now expiration)).

(** ** The remote embedder and the choice of backend *)

(** White space as [String.prototype.trim] removes it. *)
Definition is_space (c : Z) : bool :=
  in_range 9 13 c || (c =? 32) || (c =? 160) || (c =? 5760) || in_range 8192 8202 c
  || (c =? 8232) || (c =? 8233) || (c =? 8239) || (c =? 8287) || (c =? 12288)
  || (c =? 65279).

(** [!key || key.trim() === ''] *)
Definition key_missing (key : jsstring) : bool := forallb is_space key.

(** Five CJK code units in a row. *)
Fixpoint has_cjk_run (s : jsstring) (run : nat) : bool :=
  match s with
  | [] => false
  | c :: s' =>
      if is_cjk c then
        match run with
        | 4%nat => true
        | _ => has_cjk_run s' (S run)
        end
      else has_cjk_run s' 0
  end.

Definition request_text (text : jsstring) : jsstring :=
  if has_cjk_run text 0 then str "Content for multilingual semantic embedding: " ++ text
  else text.

(** [getGeminiEmbedding(text)].  The status-bar item and the console are not
    modelled; the inner [try ... catch] rethrows what it catches. *)
Definition getGeminiEmbedding (h : Host) (text : jsstring) : M (list float) :=
  key ← gets (fun st => apiKey (settings st));
  if key_missing key then
    _ ← Notice NoticeMissingKey;
    throw MissingApiKey
  else
    r ← fetch h key (request_text text);
    match r with
    | Rejected => throw FetchRejected
    | NotOk status => _ ← Notice (NoticeApiError status); throw (ApiError status)
    | Malformed => throw InvalidResponseFormat
    | Values values => mret values
    end.

(** A string is truthy when it is not empty. *)
Definition nonempty (s : jsstring) : bool :=
  match s with
  | [] => false
  | _ => true
  end.

(** [getEmbedding(text)].  The first step only counts the call, for the
    record kept in [state]. *)
Definition getEmbedding (h : Host) (text : jsstring) : M (list float) :=
  _ ← modify count_embed;
  s ← gets settings;
  if useGeminiEmbeddings s && nonempty (apiKey s) then
    try_catch (getGeminiEmbedding h text) (fun _ =>
      _ ← Notice NoticeFallback;
      lift (getLocalEmbedding text))
  else lift (getLocalEmbedding text).

(** ** Cache-or-compute *)

(** The test of [getNoteEmbedding]: an entry exists and the file was not
    modified after it was cached. *)
Definition cached (f : TFile) (st : state) : option (list float) :=
  match embeddings st !! path f with
  | Some cacheEntry =>
      if bool_decide (mtime f <= timestamp cacheEntry) then Some (embedding cacheEntry)
      else None
  | None => None
  end.

(** [getNoteEmbedding(file)] *)
Definition getNoteEmbedding (h : Host) (f : TFile) : M (list float) :=
  hit ← gets (cached f);
  match hit with
  | Some e => mret e
  | None =>
      content ← vault_read h f;
      e ← getEmbedding h content;
      now ← Date_now h;
      _ ← modify (set_embeddings (insert (path f) {| embedding := e; timestamp := now |}));
      mret e
  end.

(** ** Ranking and the orchestration *)

(** [shouldIgnoreFile(file)] *)
Definition shouldIgnoreFile (s : Settings) (f : TFile) : bool :=
  negb (jsstring_eqb (extension f) (str "md"))
  || existsb (fun folder => startsWith (path f) folder) (ignoreFolders s).

(** The scoring of one candidate:
    [if (similarity >= minSimilarityScore) similarityScores.push(...)]. *)
Definition push_if_similar (floor : float) (currentEmbedding : list float)
    (similarityScores : list SimilarNoteResult) (f : TFile) (e : list float)
  : list SimilarNoteResult :=
  let similarity := cosineSimilarity currentEmbedding e in
  if (floor <=? similarity)%float then
    similarityScores ++ [{| file := f; score := similarity |}]
  else similarityScores.

(** The comparator [(a, b) => b.score - a.score] asks for [x] before an
    earlier [y] when [x.score - y.score] is positive.  On binary64 numbers a
    difference is positive exactly when the minuend is the greater one (a
    difference of distinct numbers never rounds to zero), and a [NaN]
    difference counts as [0]; so the test is [y.score < x.score]. *)
Definition before_desc (x y : SimilarNoteResult) : bool := (score y <? score x)%float.

(** [l.slice(0, n)] for an integer [n]. *)
Definition slice0 {A} (n : Z) (l : list A) : list A :=
  let len := Z.of_nat (length l) in
  take (Z.to_nat (if n <? 0 then Z.max (len + n) 0 else Z.min n len)) l.

(** [similarityScores.sort(...)] (a stable sort) and [slice(0, numSimilarNotes)]. *)
Definition topResults (similarityScores : list SimilarNoteResult) (cap : Z)
  : list SimilarNoteResult :=
  slice0 cap (sort_by before_desc similarityScores).

(** The ranker: the scoring, sorting and truncation of [findSimilarNotes]
    over candidates whose embeddings are resolved. *)
Definition rank (query : list float) (candidates : list (TFile * list float))
    (floor : float) (cap : Z) : list SimilarNoteResult :=
  topResults
    (fold_left (fun acc c => push_if_similar floor query acc c.1 c.2) candidates [])
    cap.

(** The loop over [files] in [findSimilarNotes]. *)
Fixpoint score_files (h : Host) (currentFile : TFile) (currentEmbedding : list float)
    (files : list TFile) (similarityScores : list SimilarNoteResult)
  : M (list SimilarNoteResult) :=
  match files with
  | [] => mret similarityScores
  | f :: files' =>
      s ← gets settings;
      if jsstring_eqb (path f) (path currentFile) || shouldIgnoreFile s f then
        score_files h currentFile currentEmbedding files' similarityScores
      else
        e ← getNoteEmbedding h f;
        score_files h currentFile currentEmbedding files'
          (push_if_similar (minSimilarityScore s) currentEmbedding similarityScores f e)
  end.

(** How a call of [findSimilarNotes] ends. *)
Inductive outcome : Type :=
| NoActiveNote                                (* nothing to do *)
| Shown (results : list SimilarNoteResult)    (* [sidebar.updateResults(currentFile, results)] *)
| Failed (e : error).                         (* the [catch] branch: an error notice, no results *)

(** The [try] block of [findSimilarNotes]. *)
Definition find_similar (h : Host) (currentFile : TFile) : M (list SimilarNoteResult) :=
  currentEmbedding ← getNoteEmbedding h currentFile;
  similarityScores ← score_files h currentFile currentEmbedding (getMarkdownFiles h) [];
  cap ← gets (fun st => numSimilarNotes (settings st));
  mret (topResults similarityScores cap).

(** [findSimilarNotes()].  [active] is the active Markdown view, if any, with
    its file, if any.  The sidebar is the receiver of the results and the
    write-back of the cache to disk is fire-and-forget; neither is modelled. *)
Definition findSimilarNotes (h : Host) (active : option (option TFile)) (st : state)
  : outcome * state :=
  match active with
  | None => (NoActiveNote, log_notice NoticeNoActiveNote st)
  | Some None => (NoActiveNote, log_notice NoticeNoActiveFile st)
  | Some (Some currentFile) =>
      match find_similar h currentFile (log_notice NoticeFinding st) with
      | (Ok results, st') => (Shown results, st')
      | (Err e, st') => (Failed e, log_notice NoticeError st')
      end
  end.

(** * Vocabulary of the properties *)

(** Scores in non-increasing order. *)
Definition score_ge (r1 r2 : SimilarNoteResult) : Prop :=
  (score r2 <=? score r1)%float = true.

(** A score that passes the floor. *)
Definition passes (floor : float) (r : SimilarNoteResult) : Prop :=
  (floor <=? score r)%float = true.

(** The candidates that pass the floor, as [push_if_similar] sees them. *)
Definition passing (query : list float) (floor : float)
    (candidates : list (TFile * list float)) : list (TFile * list float) :=
  filter (fun c => (floor <=? cosineSimilarity query c.2)%float = true) candidates.

(** The sum of squares the loop of [cosineSimilarity] accumulates for one
    vector. *)
Definition sum_squares (v : list float) : float :=
  fold_left (fun s x => s + x * x)%float v 0%float.

(** A component that is [0] or [-0]. *)
Definition is_zero (x : float) : Prop := x = 0%float \/ x = (-0)%float.

(** Sample inputs. *)

Definition example_query : list float := [1; 0]%float.

Definition example_file (p : string) (modified : Z) : TFile :=
  {| path := str p; extension := str "md"; mtime := modified |}.

Definition example_candidates : list (TFile * list float) :=
  [ (example_file "b.md" 10, [0; 1]%float);
    (example_file "c.md" 10, [1; 1]%float);
    (example_file "d.md" 10, [2; 0]%float);
    (example_file "e.md" 10, [1; 0; 0]%float) ].


(** A run of the local embedder that kept every write inside the array: it
    ends with a 200-element vector or with the [TypeError], never with
    [OutOfBoundsWrite]. *)
Definition in_bounds (r : res (list float)) : Prop :=
  match r with
  | Ok vector => length vector = 200%nat
  | Err e => e = TypeError
  end.

(** The cache holds an entry for the file that is at least as new as the
    file. *)
Definition fresh (f : TFile) (st : state) : Prop :=
  exists item, embeddings st !! path f = Some item /\ mtime f <= timestamp item.

(** [getNoteEmbedding] reuses the cache: it returns the cached vector and
    asks nothing of the host (no read, no embedding, no clock), leaving the
    state as it was. *)
Definition reuses (h : Host) (f : TFile) (st : state) : Prop :=
  exists item, embeddings st !! path f = Some item
               /\ getNoteEmbedding h f st = (Ok (embedding item), st).

(** The files [findSimilarNotes] passes over: the current file and the
    ignored ones. *)
Definition skipped (currentFile : TFile) (s : Settings) (f : TFile) : bool :=
  jsstring_eqb (path f) (path currentFile) || shouldIgnoreFile s f.

(** The candidates of a run, each with the vector the cache serves for it. *)
Definition cached_candidates (currentFile : TFile) (st : state) (files : list TFile)
  : list (TFile * list float) :=
  flat_map (fun f =>
    if skipped currentFile (settings st) f then []
    else match cached f st with
         | Some e => [(f, e)]
         | None => []
         end) files.

(** Sample hosts and states. *)

(** A document of a sample vault: its path and its text. *)
Definition doc (name text : string) : string * string := (name, text).

Fixpoint sample_contents (contents : list (string * string)) (p : jsstring)
  : option jsstring :=
  match contents with
  | [] => None
  | (name, text) :: rest =>
      if jsstring_eqb (str name) p then Some (str text) else sample_contents rest p
  end.

Definition sample_host (files : list TFile) (contents : list (string * string))
    (remote : response) : Host :=
  {| dateNow := fun n => 1000 + Z.of_nat n;
     getMarkdownFiles := files;
     vaultRead := sample_contents contents;
     fetchEmbedding := fun _ _ _ => remote |}.

Definition sample_state (s : Settings) (cache : gmap jsstring EmbeddingCacheItem) : state :=
  {| settings := s; embeddings := cache;
     clockReads := 0; fetches := 0; embedCalls := 0; reads := []; notices := [] |}.

Definition with_backend (remote : bool) (key : jsstring) (s : Settings) : Settings :=
  {| apiKey := key; numSimilarNotes := numSimilarNotes s;
     minSimilarityScore := minSimilarityScore s; ignoreFolders := ignoreFolders s;
     cacheExpiration := cacheExpiration s; useGeminiEmbeddings := remote |}.

Definition with_floor (floor : float) (s : Settings) : Settings :=
  {| apiKey := apiKey s; numSimilarNotes := numSimilarNotes s;
     minSimilarityScore := floor; ignoreFolders := ignoreFolders s;
     cacheExpiration := cacheExpiration s; useGeminiEmbeddings := useGeminiEmbeddings s |}.

(** Two plugin states that differ at most in the backend switch and in the
    notices raised so far. *)
Definition same_but_backend (st st' : state) : Prop :=
  settings st' = with_backend false (apiKey (settings st)) (settings st)
  /\ embeddings st' = embeddings st /\ clockReads st' = clockReads st
  /\ fetches st' = fetches st /\ embedCalls st' = embedCalls st
  /\ reads st' = reads st.


(** Two runs, one with the remote backend selected but no usable key, the
    other with the local backend, started in states that otherwise agree:
    [agree m m'] says that [m] in the first and [m'] in the second end the
    same way and in states that still agree. *)
Definition paired (st st' : state) : Prop :=
  key_missing (apiKey (settings st)) = true /\ same_but_backend st st'.

Definition agree {A} (m m' : M A) : Prop :=
  forall st st', paired st st' ->
    (m st).1 = (m' st').1 /\ paired (m st).2 (m' st').2.


(** * Vocabulary of further properties *)

(** The base-31 polynomial of the code units, over the integers:
    [s[0] * 31^(n-1) + ... + s[n-1]]. *)
Definition polynomial31 (s : jsstring) : Z :=
  fold_left (fun h c => 31 * h + c) s 0.

(** The results [push_if_similar] collects over a list of resolved
    candidates, in the order of the candidates. *)
Definition scored (query : list float) (floor : float)
    (candidates : list (TFile * list float)) : list SimilarNoteResult :=
  map (fun c => {| file := c.1; score := cosineSimilarity query c.2 |})
      (passing query floor candidates).

(** The vector of a successful outcome (for sample inputs). *)
Definition vector_of (r : res (list float)) : list float :=
  match r with
  | Ok v => v
  | Err _ => []
  end.

(** The remote embedder is selected and its key passes both tests, the one
    of [getEmbedding] and the one of [getGeminiEmbedding]. *)
Definition remote_ready (s : Settings) : bool :=
  useGeminiEmbeddings s && nonempty (apiKey s) && negb (key_missing (apiKey s)).

(** A text without a single token: no unit of [[a-z0-9]] once lower-cased,
    and no CJK unit. *)
Definition wordless (text : jsstring) : Prop :=
  Forall (fun c => is_latin c = false) (toLowerCase text)
  /\ Forall (fun c => is_cjk c = false) text.

(** The expiration, in milliseconds, that [cleanEmbeddingCache] computes. *)
Definition expiration_ms (s : Settings) : Z := cacheExpiration s * 24 * 60 * 60 * 1000.
(** * Properties *)

(** ** The order of binary64 numbers *)

Lemma SFcompare_antisym X Y c :
  SFcompare X Y = Some c -> SFcompare Y X = Some (CompOpp c).
Proof.
  destruct X as [[]|[]| |[] mx ex], Y as [[]|[]| |[] my ey];
    simpl; intros [= <-]; try reflexivity;
    rewrite (Z.compare_antisym ex ey);
    change (Pos.compare_cont Eq my mx) with (Pos.compare my mx);
    change (Pos.compare_cont Eq mx my) with (Pos.compare mx my);
    rewrite (Pos.compare_antisym mx my);
    destruct (ex ?= ey)%Z; simpl; try reflexivity;
    destruct (mx ?= my)%positive; reflexivity.
Qed.

Lemma SFcompare_defined X Y F c c' :
  SFcompare F X = Some c -> SFcompare F Y = Some c' ->
  exists d, SFcompare X Y = Some d.
Proof.
  destruct F as [[]|[]| |[] mf ef], X as [[]|[]| |[] mx ex], Y as [[]|[]| |[] my ey];
    simpl; intros ? ?; try discriminate; eauto.
Qed.

Lemma SFleb_trans X Y Z :
  SFleb X Y = true -> SFleb Y Z = true -> SFleb X Z = true.
Proof.
  unfold SFleb.
  destruct X as [[]|[]| |[] mx ex], Y as [[]|[]| |[] my ey], Z as [[]|[]| |[] mz ez];
    simpl; try done;
    change (Pos.compare_cont Eq mx my) with (Pos.compare mx my);
    change (Pos.compare_cont Eq my mz) with (Pos.compare my mz);
    change (Pos.compare_cont Eq mx mz) with (Pos.compare mx mz);
    destruct (Z.compare_spec ex ey), (Z.compare_spec ey ez), (Z.compare_spec ex ez);
    simpl; try done; try lia;
    destruct (Pos.compare_spec mx my), (Pos.compare_spec my mz), (Pos.compare_spec mx mz);
    simpl; try done; lia.
Qed.

(** [x <= y] and [y <= z] give [x <= z]. *)
Lemma float_le_trans (x y z : float) :
  (x <=? y)%float = true -> (y <=? z)%float = true -> (x <=? z)%float = true.
Proof. rewrite !leb_spec. apply SFleb_trans. Qed.

(** [x < y] gives [x <= y]. *)
Lemma float_lt_le (x y : float) :
  (x <? y)%float = true -> (x <=? y)%float = true.
Proof.
  rewrite ltb_spec, leb_spec. unfold SFltb, SFleb.
  destruct (SFcompare (Prim2SF x) (Prim2SF y)) as [[]|]; done.
Qed.

(** Two numbers that are both at least [f] (so neither is [NaN]) are
    comparable: when [x < y] fails, [y <= x] holds. *)
Lemma float_not_lt_ge (f x y : float) :
  (f <=? x)%float = true -> (f <=? y)%float = true ->
  (x <? y)%float = false -> (y <=? x)%float = true.
Proof.
  rewrite !leb_spec, ltb_spec. unfold SFleb, SFltb. intros Hx Hy Hlt.
  destruct (SFcompare (Prim2SF f) (Prim2SF x)) as [cx|] eqn:Ex; [|done].
  destruct (SFcompare (Prim2SF f) (Prim2SF y)) as [cy|] eqn:Ey; [|done].
  destruct (SFcompare_defined _ _ _ _ _ Ex Ey) as [d Hd].
  rewrite (SFcompare_antisym _ _ _ Hd). rewrite Hd in Hlt.
  destruct d; done.
Qed.

(** ** Sorting and truncation *)

Lemma elem_of_insert_by {A} (before : A -> A -> bool) (x y : A) (l : list A) :
  y ∈ insert_by before x l <-> y = x \/ y ∈ l.
Proof.
  induction l as [|z l IH]; simpl.
  - rewrite list_elem_of_singleton, elem_of_nil. tauto.
  - destruct (before x z); rewrite !elem_of_cons; [tauto|]. rewrite IH. tauto.
Qed.

Lemma length_insert_by {A} (before : A -> A -> bool) (x : A) (l : list A) :
  length (insert_by before x l) = S (length l).
Proof. induction l as [|z l IH]; simpl; [done|]. destruct (before x z); simpl; lia. Qed.

Lemma sort_by_fold {A} (before : A -> A -> bool) (l acc : list A) :
  length (fold_left (fun sorted x => insert_by before x sorted) l acc)
    = (length acc + length l)%nat
  /\ forall y, y ∈ fold_left (fun sorted x => insert_by before x sorted) l acc
               <-> y ∈ acc \/ y ∈ l.
Proof.
  revert acc. induction l as [|x l IH]; intros acc; simpl.
  - split; [lia|]. intros y. rewrite elem_of_nil. tauto.
  - destruct (IH (insert_by before x acc)) as [Hlen Hin]. split.
    + rewrite Hlen, length_insert_by. lia.
    + intros y. rewrite Hin, elem_of_insert_by, elem_of_cons. tauto.
Qed.

Lemma length_sort_by {A} (before : A -> A -> bool) (l : list A) :
  length (sort_by before l) = length l.
Proof. unfold sort_by. by rewrite (proj1 (sort_by_fold before l [])). Qed.

Lemma elem_of_sort_by {A} (before : A -> A -> bool) (l : list A) (y : A) :
  y ∈ sort_by before l <-> y ∈ l.
Proof.
  unfold sort_by. rewrite (proj2 (sort_by_fold before l [])), elem_of_nil. tauto.
Qed.

Lemma length_slice0 {A} (n : Z) (l : list A) :
  0 <= n -> Z.of_nat (length (slice0 n l)) = Z.min n (Z.of_nat (length l)).
Proof.
  intros Hn. unfold slice0. rewrite length_take.
  destruct (Z.ltb_spec n 0); lia.
Qed.

Lemma slice0_sublist {A} (n : Z) (l : list A) (y : A) : y ∈ slice0 n l -> y ∈ l.
Proof. unfold slice0. apply subseteq_take. Qed.

Lemma insert_desc_sorted floor x l :
  passes floor x -> Forall (passes floor) l ->
  StronglySorted score_ge l -> StronglySorted score_ge (insert_by before_desc x l).
Proof.
  intros Hx Hl Hs. induction Hs as [|y l Hs IH Hy]; simpl.
  - repeat constructor.
  - apply Forall_cons in Hl as [Hfy Hl].
    unfold before_desc at 1. destruct (score y <? score x)%float eqn:Hlt.
    + constructor; [by constructor|]. apply float_lt_le in Hlt.
      constructor; [exact Hlt|].
      eapply Forall_impl; [exact Hy|]. intros z Hz. unfold score_ge in *.
      by eapply float_le_trans.
    + constructor; [by apply IH|].
      apply Forall_forall. intros z Hz. apply elem_of_insert_by in Hz as [->|Hz].
      * unfold score_ge. by eapply float_not_lt_ge.
      * by eapply Forall_forall in Hy.
Qed.

Lemma sort_desc_sorted floor l :
  Forall (passes floor) l -> StronglySorted score_ge (sort_by before_desc l).
Proof.
  unfold sort_by. intros Hl.
  assert (Hgen : forall acc, Forall (passes floor) acc -> StronglySorted score_ge acc ->
            StronglySorted score_ge
              (fold_left (fun sorted x => insert_by before_desc x sorted) l acc)).
  { induction Hl as [|x l Hx Hl IH]; intros acc Hacc Hs; simpl; [done|].
    apply IH.
    - apply Forall_forall. intros z Hz. apply elem_of_insert_by in Hz as [->|Hz]; [done|].
      by eapply Forall_forall in Hacc.
    - by eapply insert_desc_sorted. }
  apply Hgen; constructor.
Qed.

Lemma StronglySorted_take {A} (R : A -> A -> Prop) (n : nat) (l : list A) :
  StronglySorted R l -> StronglySorted R (take n l).
Proof.
  intros Hs. rewrite <- (take_drop n l) in Hs. by apply StronglySorted_app_1_l in Hs.
Qed.

Lemma scored_fold query floor candidates acc :
  Forall (passes floor) acc ->
  Forall (passes floor)
    (fold_left (fun acc c => push_if_similar floor query acc c.1 c.2) candidates acc)
  /\ length (fold_left (fun acc c => push_if_similar floor query acc c.1 c.2) candidates acc)
     = (length acc + length (passing query floor candidates))%nat.
Proof.
  revert acc. induction candidates as [|c cs IH]; intros acc Hacc; simpl.
  - split; [done|]. unfold passing. simpl. lia.
  - unfold passing. rewrite filter_cons. fold (passing query floor cs).
    unfold push_if_similar at 2 4.
    destruct (decide ((floor <=? cosineSimilarity query c.2)%float = true)) as [Hle|Hle].
    + rewrite Hle.
      destruct (IH (acc ++ [{| file := c.1; score := cosineSimilarity query c.2 |}])) as [H1 H2].
      { apply Forall_app. split; [done|]. by repeat constructor. }
      split; [done|]. rewrite H2, length_app. simpl. lia.
    + apply not_true_is_false in Hle. rewrite Hle. by apply IH.
Qed.

(** C5.  For every query vector, candidate list, floor and cap [cap >= 0]:
    the ranked output has at most [cap] entries, and no more entries than
    there are candidates whose similarity passes the floor (so it is the empty
    list, not an error, when there is no candidate or every score is below the
    floor); every returned score is at least the floor; and the scores are in
    non-increasing order. *)
Theorem rank_bounded_floored_sorted (query : list float)
    (candidates : list (TFile * list float)) (floor : float) (cap : Z) :
  0 <= cap ->
  Z.of_nat (length (rank query candidates floor cap)) <= cap
  /\ (length (rank query candidates floor cap) <= length (passing query floor candidates))%nat
  /\ rank query [] floor cap = []
  /\ Forall (passes floor) (rank query candidates floor cap)
  /\ StronglySorted score_ge (rank query candidates floor cap).
Proof.
  intros Hcap. unfold rank, topResults.
  destruct (scored_fold query floor candidates []) as [Hpass Hlen]; [constructor|].
  set (scored := fold_left _ candidates []) in *.
  pose proof (length_slice0 cap (sort_by before_desc scored) Hcap) as Hsl.
  rewrite length_sort_by in Hsl. simpl in Hlen.
  repeat split.
  - lia.
  - lia.
  - unfold slice0. simpl. apply take_nil.
  - apply Forall_forall. intros r Hr. apply slice0_sublist, elem_of_sort_by in Hr.
    by eapply Forall_forall in Hpass.
  - unfold slice0. apply StronglySorted_take. by eapply sort_desc_sorted.
Qed.

Lemma rank_bounded_floored_sorted_witness :
  0 <= 1
  /\ Z.of_nat (length (rank example_query example_candidates 0.5%float 1)) <= 1
  /\ (length (rank example_query example_candidates 0.5%float 1)
      <= length (passing example_query 0.5%float example_candidates))%nat
  /\ rank example_query [] 0.5%float 1 = []
  /\ Forall (passes 0.5%float) (rank example_query example_candidates 0.5%float 1)
  /\ StronglySorted score_ge (rank example_query example_candidates 0.5%float 1).
Proof.
  split; [lia|].
  apply (rank_bounded_floored_sorted example_query example_candidates 0.5%float 1). lia.
Defined.

Example rank_example :
  map score (rank example_query example_candidates 0.5%float 5)
    = [1; 0x1.6a09e667f3bccp-1]%float.
Proof. reflexivity. Qed.

(** ** Cosine similarity *)

Lemma cosine_norms (a b : list float) (d na nb : float) :
  length a = length b ->
  (fold_left cosine_step (combine a b) (d, na, nb)).1.2
    = fold_left (fun s x => s + x * x)%float a na
  /\ (fold_left cosine_step (combine a b) (d, na, nb)).2
    = fold_left (fun s x => s + x * x)%float b nb.
Proof.
  revert b d na nb. induction a as [|x a IH]; intros [|y b] d na nb Hlen;
    simpl in *; try done.
  apply IH. congruence.
Qed.

Lemma sum_squares_zero (v : list float) :
  Forall is_zero v -> sum_squares v = 0%float.
Proof.
  unfold sum_squares. induction 1 as [|x v [-> | ->] _ IH]; simpl; done.
Qed.

(** C6.  For all vectors [a] and [b], [cosineSimilarity a b] is [0] whenever
    the lengths differ, or the sum of squares of either vector is zero, or
    either vector has only zero components.  The function is total: it
    returns a number on every input. *)
Theorem cosineSimilarity_zero (a b : list float) :
  length a <> length b
  \/ (sum_squares a =? 0)%float = true \/ (sum_squares b =? 0)%float = true
  \/ Forall is_zero a \/ Forall is_zero b ->
  cosineSimilarity a b = 0%float.
Proof.
  intros H. unfold cosineSimilarity.
  destruct (Nat.eqb_spec (length a) (length b)) as [Hlen|Hlen]; simpl; [|done].
  destruct H as [H|H]; [done|].
  destruct (cosine_norms a b 0 0 0 Hlen) as [Ha Hb].
  destruct (fold_left cosine_step (combine a b) (0, 0, 0)%float) as [[d na] nb].
  simpl in Ha, Hb. fold (sum_squares a) in Ha. fold (sum_squares b) in Hb. subst na nb.
  assert (Hz : (sum_squares a =? 0)%float = true \/ (sum_squares b =? 0)%float = true).
  { destruct H as [H|[H|[H|H]]]; auto.
    - left. by rewrite (sum_squares_zero a H).
    - right. by rewrite (sum_squares_zero b H). }
  destruct Hz as [-> | ->]; [done|]. by rewrite orb_true_r.
Qed.

Lemma cosineSimilarity_zero_witness :
  (length [1; 2]%float <> length [1; 2; 3]%float
   \/ (sum_squares [1; 2] =? 0)%float = true \/ (sum_squares [1; 2; 3] =? 0)%float = true
   \/ Forall is_zero [1; 2]%float \/ Forall is_zero [1; 2; 3]%float)
  /\ cosineSimilarity [1; 2]%float [1; 2; 3]%float = 0%float.
Proof.
  assert (H : length [1; 2]%float <> length [1; 2; 3]%float
   \/ (sum_squares [1; 2] =? 0)%float = true \/ (sum_squares [1; 2; 3] =? 0)%float = true
   \/ Forall is_zero [1; 2]%float \/ Forall is_zero [1; 2; 3]%float).
  { left. simpl. lia. }
  split; [exact H|].
  exact (cosineSimilarity_zero [1; 2]%float [1; 2; 3]%float H).
Defined.

Example cosine_of_zero_vectors :
  cosineSimilarity [0; -0]%float [3; 4]%float = 0%float
  /\ cosineSimilarity [3; 4]%float [0; 0]%float = 0%float
  /\ cosineSimilarity [0x1p-600; 0]%float [1; 1]%float = 0%float
  /\ cosineSimilarity [3; 4]%float [3; 4]%float = 1%float.
Proof. repeat split; reflexivity. Qed.

(** ** The string hash and the slots of the local embedder *)

Lemma simpleHash_nonneg (s : jsstring) : 0 <= simpleHash s.
Proof. apply Z.abs_nonneg. Qed.

Lemma hash_slot_range (s : jsstring) : 0 <= js_rem (simpleHash s) 100 < 100.
Proof.
  unfold js_rem. pose proof (simpleHash_nonneg s).
  apply Z.rem_bound_pos; lia.
Qed.

Example simpleHash_samples :
  map (fun s => simpleHash (str s)) ["time"; "hello world"; "zz top 99"]%string
    = [3560141; 1794106052; 1829408085].
Proof. reflexivity. Qed.

Lemma token_slot_range (token : jsstring) :
  if test is_cjk token then 100 <= token_slot token < 200
  else 0 <= token_slot token < 100.
Proof.
  unfold token_slot. pose proof (hash_slot_range token).
  destruct (test is_cjk token); lia.
Qed.

Lemma add_at_in_range (vector : list float) (i : Z) (x : float) :
  length vector = 200%nat -> 0 <= i < 200 ->
  exists vector', add_at vector i x = Ok vector' /\ length vector' = 200%nat.
Proof.
  intros Hlen Hi. unfold add_at. rewrite bool_decide_eq_true_2 by lia.
  eexists. split; [done|]. by rewrite length_alter.
Qed.

Lemma for_each_in_bounds {A} (body : list float -> A -> res (list float))
    (l : list A) (vector : list float) :
  (forall v a, length v = 200%nat -> in_bounds (body v a)) ->
  length vector = 200%nat -> in_bounds (for_each body l vector).
Proof.
  intros Hbody. revert vector. induction l as [|a l IH]; intros vector Hlen; simpl.
  - done.
  - pose proof (Hbody vector a Hlen) as Ha.
    destruct (body vector a) as [v'|e]; simpl in *; [by apply IH | done].
Qed.

Lemma for_each_add_at_in_bounds {A} (slot : A -> Z) (amount : A -> float)
    (l : list A) (vector : list float) :
  (forall a, 0 <= slot a < 200) -> length vector = 200%nat ->
  in_bounds (for_each (fun v a => add_at v (slot a) (amount a)) l vector).
Proof.
  intros Hslot. apply for_each_in_bounds. intros v a Hv.
  destruct (add_at_in_range v (slot a) (amount a) Hv (Hslot a)) as (v' & -> & Hv').
  done.
Qed.

Lemma cross_features_in_bounds concepts c2e tokenFreq vector token :
  length vector = 200%nat ->
  in_bounds (cross_features concepts c2e tokenFreq vector token).
Proof.
  intros Hlen. unfold cross_features.
  destruct (test is_chinese token && truthy (get_prop c2e token)).
  - destruct (get_prop c2e token) as [equivs| |]; simpl; try done.
    apply (for_each_add_at_in_bounds (fun e => js_rem (simpleHash e) 100)); [|done].
    intros e. pose proof (hash_slot_range e). lia.
  - destruct (negb (test is_chinese token) && truthy (get_prop concepts token)); [|done].
    destruct (get_prop concepts token) as [equivs| |]; simpl; try done.
    apply (for_each_add_at_in_bounds (fun e => 100 + js_rem (simpleHash e) 100)); [|done].
    intros e. pose proof (hash_slot_range e). lia.
Qed.

Lemma for_each_only_TypeError {A S} (body : S -> A -> res S) (l : list A) (s : S) e :
  (forall s a e, body s a = Err e -> e = TypeError) ->
  for_each body l s = Err e -> e = TypeError.
Proof.
  intros Hbody. revert s. induction l as [|a l IH]; intros s; simpl; [done|].
  destruct (body s a) as [s'|e'] eqn:Hb; simpl.
  - apply IH.
  - intros [= <-]. by eapply Hbody.
Qed.

Lemma reverse_table_only_TypeError concepts e :
  reverse_table concepts = Err e -> e = TypeError.
Proof.
  unfold reverse_table. apply for_each_only_TypeError.
  intros c2e [eng zhArr] e'. apply for_each_only_TypeError.
  intros c2e' zh e''. unfold reverse_entry.
  destruct (get_prop c2e' zh); congruence.
Qed.

Lemma addCrossLanguageFeatures_with_in_bounds concepts vector tokenFreq :
  length vector = 200%nat ->
  in_bounds (addCrossLanguageFeatures_with concepts vector tokenFreq).
Proof.
  intros Hlen. unfold addCrossLanguageFeatures_with.
  destruct (reverse_table concepts) as [c2e|e] eqn:Hrev; simpl.
  - apply for_each_in_bounds; [|done]. intros v token Hv.
    by apply cross_features_in_bounds.
  - by eapply reverse_table_only_TypeError.
Qed.

Lemma length_normalize (vector : list float) : length (normalize vector) = length vector.
Proof. unfold normalize. destruct (0 <? magnitude vector)%float; [apply length_map|done]. Qed.

Lemma getLocalEmbedding_with_in_bounds concepts text :
  in_bounds (getLocalEmbedding_with concepts text).
Proof.
  unfold getLocalEmbedding_with.
  set (tokenFreq := count_tokens (tokenize text)).
  pose proof (for_each_add_at_in_bounds token_slot (freq tokenFreq)
                (Object_keys tokenFreq) (repeat 0%float 200)) as H1.
  destruct (for_each _ (Object_keys tokenFreq) (repeat 0%float 200)) as [v1|e1]; simpl.
  - assert (Hv1 : length v1 = 200%nat).
    { apply H1; [|by rewrite repeat_length].
      intros token. pose proof (token_slot_range token).
      destruct (test is_cjk token); lia. }
    pose proof (addCrossLanguageFeatures_with_in_bounds concepts v1 tokenFreq Hv1) as H2.
    destruct (addCrossLanguageFeatures_with concepts v1 tokenFreq) as [v2|e2]; simpl in *.
    + by rewrite length_normalize.
    + done.
  - apply H1; [|by rewrite repeat_length].
    intros token. pose proof (token_slot_range token).
    destruct (test is_cjk token); lia.
Qed.

(** C10.  [simpleHash] is non-negative on every string, also on a string
    whose 32-bit hash is the least signed integer; so the slot of a
    Latin-script token lies in [0, 100), the slot of a CJK token in
    [100, 200), the slots of cross-language equivalents in [0, 100) and
    [100, 200), and no run of [getLocalEmbedding] or of
    [addCrossLanguageFeatures] on a 200-element vector writes outside the
    vector. *)
Theorem local_embedding_writes_in_bounds :
  (forall s : jsstring, 0 <= simpleHash s)
  /\ (fold_left hash_step (str "polygenelubricants") 0 = - 2 ^ 31
      /\ simpleHash (str "polygenelubricants") = 2 ^ 31)
  /\ (forall token : jsstring,
        if test is_cjk token then 100 <= token_slot token < 200
        else 0 <= token_slot token < 100)
  /\ (forall equiv : jsstring,
        0 <= js_rem (simpleHash equiv) 100 < 100
        /\ 100 <= 100 + js_rem (simpleHash equiv) 100 < 200)
  /\ (forall text : jsstring, in_bounds (getLocalEmbedding text))
  /\ (forall (vector : list float) (tokenFreq : object float),
        length vector = 200%nat ->
        in_bounds (addCrossLanguageFeatures vector tokenFreq)).
Proof.
  split; [exact simpleHash_nonneg|].
  split; [by vm_compute|].
  split; [exact token_slot_range|].
  split; [intros e; pose proof (hash_slot_range e); lia|].
  split.
  - intros text. apply getLocalEmbedding_with_in_bounds.
  - intros vector tokenFreq. apply addCrossLanguageFeatures_with_in_bounds.
Qed.

Example getLocalEmbedding_runs :
  (exists v, getLocalEmbedding (str "time flies") = Ok v /\ length v = 200%nat)
  /\ getLocalEmbedding (str "the constructor pattern") = Err TypeError
  /\ token_slot (str "polygenelubricants") = 48.
Proof.
  split; [|split; by vm_compute].
  eexists. split; [by vm_compute|]. reflexivity.
Qed.

(** ** Determinism of the local embedder *)

(** C9.  The local embedder is deterministic and reads no state: called in
    any two plugin states (different settings, caches, clocks, histories) on
    the same text it returns one and the same outcome, an identical vector
    or the same exception, and it leaves the state it runs in untouched. *)
Theorem getLocalEmbedding_deterministic (text : jsstring) (st1 st2 : state) :
  (lift (getLocalEmbedding text) st1).1 = (lift (getLocalEmbedding text) st2).1
  /\ (lift (getLocalEmbedding text) st1).1 = getLocalEmbedding text
  /\ (lift (getLocalEmbedding text) st1).2 = st1
  /\ (lift (getLocalEmbedding text) st2).2 = st2.
Proof. repeat split. Qed.

(** The outcome depends on the text only through its tokens. *)
Lemma getLocalEmbedding_tokens (text1 text2 : jsstring) :
  tokenize text1 = tokenize text2 -> getLocalEmbedding text1 = getLocalEmbedding text2.
Proof.
  intros H. unfold getLocalEmbedding, getLocalEmbedding_with. by rewrite H.
Qed.

Example getLocalEmbedding_case_insensitive :
  getLocalEmbedding (str "The CAT sat.") = getLocalEmbedding (str "the cat sat").
Proof. by apply getLocalEmbedding_tokens. Qed.

(** ** The token [constructor] *)

Lemma set_prop_keys {A} (o : object A) (k k' : jsstring) (a : A) :
  k' ∈ (set_prop o k a).*1 <-> k' = k \/ k' ∈ o.*1.
Proof.
  induction o as [|[q b] o IH]; simpl.
  - rewrite list_elem_of_singleton, elem_of_nil. tauto.
  - unfold jsstring_eqb. case_bool_decide as Hq; simpl.
    + subst q. rewrite elem_of_cons. tauto.
    + rewrite !elem_of_cons, IH. tauto.
Qed.

Lemma count_tokens_keys (tokens : list jsstring) (acc : object float) (k : jsstring) :
  k ∈ tokens \/ k ∈ acc.*1 -> k ∈ (fold_left count_token tokens acc).*1.
Proof.
  revert acc. induction tokens as [|t tokens IH]; intros acc; simpl.
  - rewrite elem_of_nil. tauto.
  - intros H. apply IH. unfold count_token. rewrite set_prop_keys.
    rewrite elem_of_cons in H. tauto.
Qed.

Lemma Object_keys_other {A} (o : object A) (k : jsstring) :
  k ∈ o.*1 -> array_index k = None -> k ∈ Object_keys o.
Proof.
  intros Hk Hidx. unfold Object_keys. apply elem_of_app. right.
  apply list_elem_of_filter. split; [|done]. rewrite Hidx. by intros [? ?].
Qed.

Lemma for_each_throws {A S} (body : S -> A -> res S) (l : list A) (a : A) (s : S) :
  a ∈ l -> (forall s, exists e, body s a = Err e) -> exists e, for_each body l s = Err e.
Proof.
  intros Hin Ha. revert s. induction l as [|b l IH]; intros s.
  - by apply elem_of_nil in Hin.
  - simpl. apply elem_of_cons in Hin as [<-|Hin].
    + destruct (Ha s) as [e ->]. by exists e.
    + destruct (body s b) as [s'|e]; simpl; [by apply IH|by exists e].
Qed.

(** A text with the word [constructor] makes the local embedder throw: the
    lookup of that token in the concept table finds the inherited function,
    which cannot be iterated.  So the stand-in for the count of that token
    never reaches a result. *)
Lemma getLocalEmbedding_constructor (text : jsstring) :
  str "constructor" ∈ tokenize text -> getLocalEmbedding text = Err TypeError.
Proof.
  intros Htok. pose proof (getLocalEmbedding_with_in_bounds commonConcepts text) as Hb.
  fold getLocalEmbedding in Hb.
  destruct (getLocalEmbedding text) as [v|e] eqn:Hrun; [exfalso|by rewrite Hb].
  unfold getLocalEmbedding, getLocalEmbedding_with in Hrun.
  set (tokenFreq := count_tokens (tokenize text)) in *.
  set (first_loop := for_each (fun vector token =>
                        add_at vector (token_slot token) (freq tokenFreq token))
                       (Object_keys tokenFreq) (repeat 0%float 200)) in *.
  destruct first_loop as [v1|e1]; cbn [mbind res_bind] in Hrun; [|done].
  unfold addCrossLanguageFeatures_with in Hrun.
  destruct (reverse_table commonConcepts) as [c2e|e2]; cbn [mbind res_bind] in Hrun; [|done].
  destruct (for_each_throws (cross_features commonConcepts c2e tokenFreq)
              (Object_keys tokenFreq) (str "constructor") v1) as [e He].
  - apply Object_keys_other; [|by vm_compute].
    apply count_tokens_keys. by left.
  - intros s. exists TypeError. unfold cross_features.
    replace (test is_chinese (str "constructor")) with false by (by vm_compute).
    replace (get_prop commonConcepts (str "constructor")) with (@Inherited (list jsstring))
      by (by vm_compute).
    done.
  - by rewrite He in Hrun.
Qed.

(** With the local backend selected, [getEmbedding] is the local embedder. *)
Lemma getEmbedding_local_backend (h : Host) (text : jsstring) (st : state) :
  useGeminiEmbeddings (settings st) = false ->
  (getEmbedding h text st).1 = getLocalEmbedding text.
Proof.
  intros Hlocal. unfold getEmbedding, mbind, M_bind, modify, gets, lift. simpl.
  by rewrite Hlocal.
Qed.

(** ** The cache sweep *)

Lemma clean_entries_lookup (now expiration : Z) (l : list (jsstring * EmbeddingCacheItem))
    (m : gmap jsstring EmbeddingCacheItem) (p : jsstring) :
  (forall item, (p, item) ∈ l -> m !! p = Some item) ->
  foldr (clean_entry now expiration) m l !! p =
    match m !! p with
    | Some item =>
        if bool_decide (p ∈ l.*1 /\ now - timestamp item > expiration) then None
        else Some item
    | None => None
    end.
Proof.
  induction l as [|[q item'] l IH]; intros Hl.
  - cbn [foldr]. destruct (m !! p); [|done]. rewrite bool_decide_eq_false_2; [done|].
    rewrite fmap_nil, elem_of_nil. tauto.
  - cbn [foldr]. rewrite fmap_cons. unfold clean_entry at 1. cbn [fst snd].
    assert (IH' := IH (fun item H => Hl item (list_elem_of_further _ _ _ H))).
    destruct (decide (q = p)) as [->|Hne].
    + pose proof (Hl item' (list_elem_of_here _ _)) as Hm. rewrite Hm in IH' |- *.
      destruct (decide (now - timestamp item' > expiration)) as [Hexp|Hexp].
      * rewrite bool_decide_eq_true_2 by done. rewrite lookup_delete_eq.
        rewrite bool_decide_eq_true_2; [done|]. split; [apply list_elem_of_here|done].
      * rewrite bool_decide_eq_false_2 by done. rewrite IH'.
        rewrite !bool_decide_eq_false_2; [done|tauto|tauto].
    + assert (Hiff : forall item : EmbeddingCacheItem,
                bool_decide (p ∈ q :: l.*1 /\ now - timestamp item > expiration)
                = bool_decide (p ∈ l.*1 /\ now - timestamp item > expiration)).
      { intros item. apply bool_decide_ext. rewrite elem_of_cons.
        split; [intros [[?|?] ?]; [congruence|done] | tauto]. }
      destruct (bool_decide (now - timestamp item' > expiration)).
      * rewrite lookup_delete_ne by done. rewrite IH'.
        destruct (m !! p) as [item|]; [|done]. by rewrite Hiff.
      * rewrite IH'. destruct (m !! p) as [item|]; [|done]. by rewrite Hiff.
Qed.

Lemma purge_lookup (now expiration : Z) (m : gmap jsstring EmbeddingCacheItem) (p : jsstring) :
  purge now expiration m !! p =
    match m !! p with
    | Some item => if bool_decide (now - timestamp item > expiration) then None else Some item
    | None => None
    end.
Proof.
  unfold purge. rewrite clean_entries_lookup.
  - destruct (m !! p) as [item|] eqn:Hm; [|done].
    apply (f_equal (fun b : bool => if b then None else Some item)).
    apply bool_decide_ext. split; [tauto|]. intros Hexp. split; [|done].
    apply list_elem_of_fmap. exists (p, item). split; [done|].
    by apply elem_of_map_to_list.
  - intros item. by rewrite elem_of_map_to_list.
Qed.

(** C7.  After [cleanEmbeddingCache] has run at time [now] (the value of its
    call of [Date.now()]) with the window [w] (the configured days in
    milliseconds), an entry whose age [now - timestamp] exceeds [w] is absent
    from the cache, an entry whose age is at most [w] is there unchanged, and
    no entry has been added. *)
Theorem cleanEmbeddingCache_purges (h : Host) (st : state) (p : jsstring) :
  let now := dateNow h (clockReads st) in
  let w := cacheExpiration (settings st) * 24 * 60 * 60 * 1000 in
  embeddings (cleanEmbeddingCache h st).2 !! p =
    match embeddings st !! p with
    | Some item => if bool_decide (now - timestamp item > w) then None else Some item
    | None => None
    end.
Proof. simpl. apply purge_lookup. Qed.

Example cleanEmbeddingCache_sample :
  let day := 24 * 60 * 60 * 1000 in
  let h := {| dateNow := fun _ => 10 * day; getMarkdownFiles := [];
              vaultRead := fun _ => None; fetchEmbedding := fun _ _ _ => Rejected |} in
  let old := {| embedding := [1]%float; timestamp := 3 * day - 1 |} in
  let recent := {| embedding := [2]%float; timestamp := 3 * day |} in
  let st := {| settings := DEFAULT_SETTINGS;
               embeddings := <[str "old.md" := old]> (<[str "recent.md" := recent]> ∅);
               clockReads := 0; fetches := 0; embedCalls := 0; reads := []; notices := [] |} in
  embeddings (cleanEmbeddingCache h st).2 = <[str "recent.md" := recent]> ∅.
Proof.
  intros day h old recent st. apply map_eq. intros p.
  change (embeddings (cleanEmbeddingCache h st).2)
    with (purge (10 * day) (7 * 24 * 60 * 60 * 1000) (embeddings st)).
  rewrite purge_lookup. simpl.
  destruct (decide (p = str "old.md")) as [->|H1]; [by vm_compute|].
  rewrite lookup_insert_ne by done.
  destruct (decide (p = str "recent.md")) as [->|H2].
  - rewrite !lookup_insert_eq. by vm_compute.
  - rewrite !lookup_insert_ne by done. by rewrite lookup_empty.
Qed.

(** ** Cache-or-compute *)

Lemma cached_Some (f : TFile) (st : state) (e : list float) :
  cached f st = Some e <->
  exists item, embeddings st !! path f = Some item /\ mtime f <= timestamp item
               /\ e = embedding item.
Proof.
  unfold cached. destruct (embeddings st !! path f) as [item|].
  - case_bool_decide.
    + split; [intros [= <-]; eauto|]. by intros (? & [= <-] & _ & ->).
    + split; [done|]. intros (? & [= <-] & ? & _). lia.
  - split; [done|]. by intros (? & ? & _).
Qed.

Lemma cached_None (f : TFile) (st : state) : cached f st = None <-> ~ fresh f st.
Proof.
  unfold fresh. destruct (cached f st) as [e|] eqn:Hc.
  - apply cached_Some in Hc as (item & ? & ? & _). split; [done|].
    intros []. eauto.
  - split; [|done]. intros _ (item & H1 & H2).
    assert (cached f st = Some (embedding item)) by (apply cached_Some; eauto).
    congruence.
Qed.

Lemma getNoteEmbedding_hit (h : Host) (f : TFile) (st : state) (e : list float) :
  cached f st = Some e -> getNoteEmbedding h f st = (Ok e, st).
Proof.
  intros Hc. unfold getNoteEmbedding, mbind, M_bind, gets. by rewrite Hc.
Qed.

(** What a miss does, step by step. *)
Lemma getNoteEmbedding_miss (h : Host) (f : TFile) (st : state) :
  cached f st = None ->
  getNoteEmbedding h f st =
    match vaultRead h (path f) with
    | None => (Err ReadRejected, log_read (path f) st)
    | Some content =>
        match getEmbedding h content (log_read (path f) st) with
        | (Ok e, st1) =>
            (Ok e,
             set_embeddings
               (insert (path f) {| embedding := e; timestamp := dateNow h (clockReads st1) |})
               (tick_clock st1))
        | (Err err, st1) => (Err err, st1)
        end
    end.
Proof.
  intros Hc. unfold getNoteEmbedding, mbind, M_bind, gets, vault_read. rewrite Hc.
  destruct (vaultRead h (path f)) as [content|]; [|done].
  by destruct (getEmbedding h content (log_read (path f) st)) as [[e|err] st1].
Qed.

(** [getGeminiEmbedding] touches only the fetch counter and the notices. *)
Lemma getGeminiEmbedding_frame (h : Host) (text : jsstring) (st : state) :
  let st' := (getGeminiEmbedding h text st).2 in
  settings st' = settings st /\ embeddings st' = embeddings st
  /\ clockReads st' = clockReads st /\ reads st' = reads st
  /\ embedCalls st' = embedCalls st.
Proof.
  unfold getGeminiEmbedding, mbind, M_bind, gets, Notice, modify, throw, fetch, mret, M_ret.
  destruct (key_missing (apiKey (settings st))); [done|].
  destruct (fetchEmbedding h (fetches st) (apiKey (settings st)) (request_text text)); done.
Qed.

(** [getEmbedding] touches neither the settings, the cache, the clock nor
    the read log; it counts itself once. *)
Lemma getEmbedding_frame (h : Host) (text : jsstring) (st : state) :
  let st' := (getEmbedding h text st).2 in
  settings st' = settings st /\ embeddings st' = embeddings st
  /\ clockReads st' = clockReads st /\ reads st' = reads st
  /\ embedCalls st' = S (embedCalls st).
Proof.
  unfold getEmbedding, mbind, M_bind, modify, gets, try_catch, lift, Notice.
  cbn [fst snd].
  destruct (useGeminiEmbeddings (settings (count_embed st))
            && nonempty (apiKey (settings (count_embed st)))); [|done].
  pose proof (getGeminiEmbedding_frame h text (count_embed st)) as Hg.
  destruct (getGeminiEmbedding h text (count_embed st)) as [[e|err] st1]; exact Hg.
Qed.

Lemma getNoteEmbedding_miss_reads (h : Host) (f : TFile) (st : state) :
  cached f st = None ->
  reads (getNoteEmbedding h f st).2 = path f :: reads st.
Proof.
  intros Hc. rewrite (getNoteEmbedding_miss h f st Hc).
  destruct (vaultRead h (path f)) as [content|]; [|done].
  pose proof (getEmbedding_frame h content (log_read (path f) st)) as (_ & _ & _ & Hr & _).
  destruct (getEmbedding h content (log_read (path f) st)) as [[e|err] st1]; done.
Qed.

(** C3.  Cache-or-compute reuses the cached vector exactly when the cache
    holds an entry for the document whose timestamp is at least the
    document's modification time.  Otherwise (no entry, or an older one: in
    particular an entry with timestamp [T] for a document modified at
    [T + 1]) the document is read; and when the read and the embedding
    succeed, the fresh vector is returned and overwrites the entry, stamped
    with the clock's current value. *)
Theorem getNoteEmbedding_reuses_iff_fresh (h : Host) (f : TFile) (st : state) :
  (reuses h f st <-> fresh f st)
  /\ (~ fresh f st -> reads (getNoteEmbedding h f st).2 <> reads st)
  /\ (forall T item, embeddings st !! path f = Some item ->
        timestamp item = T -> mtime f = T + 1 -> ~ fresh f st)
  /\ (forall content e st1,
        ~ fresh f st ->
        vaultRead h (path f) = Some content ->
        getEmbedding h content (log_read (path f) st) = (Ok e, st1) ->
        let now := dateNow h (clockReads st1) in
        let entry := {| embedding := e; timestamp := now |} in
        getNoteEmbedding h f st
          = (Ok e, set_embeddings (insert (path f) entry) (tick_clock st1))
        /\ embeddings (getNoteEmbedding h f st).2 !! path f = Some entry).
Proof.
  assert (Hstale : ~ fresh f st -> reads (getNoteEmbedding h f st).2 <> reads st).
  { intros Hf. apply cached_None in Hf.
    rewrite (getNoteEmbedding_miss_reads h f st Hf).
    intros Heq. apply (f_equal length) in Heq. simpl in Heq. lia. }
  split; [|split; [exact Hstale|split]].
  - split.
    + intros (item & Hitem & Hrun).
      destruct (cached f st) as [e|] eqn:Hc.
      * apply cached_Some in Hc as (item' & ? & ? & _). by exists item'.
      * apply cached_None, Hstale in Hc. by rewrite Hrun in Hc.
    + intros (item & Hitem & Hle). exists item. split; [done|].
      apply getNoteEmbedding_hit, cached_Some. eauto.
  - intros T item Hitem HT Hm (item' & Hitem' & Hle).
    rewrite Hitem in Hitem'. injection Hitem' as <-. lia.
  - intros content e st1 Hf Hread Hemb now entry.
    apply cached_None in Hf. rewrite (getNoteEmbedding_miss h f st Hf), Hread, Hemb.
    split; [done|]. simpl. apply lookup_insert_eq.
Qed.

Example getNoteEmbedding_stale_sample :
  let f := example_file "a.md" 501 in
  let h := sample_host [f] [doc "a.md" "time and money"] Rejected in
  let stale := {| embedding := [1; 0]%float; timestamp := 500 |} in
  let st := sample_state DEFAULT_SETTINGS (<[str "a.md" := stale]> ∅) in
  (getNoteEmbedding h f st).1 = getLocalEmbedding (str "time and money")
  /\ (timestamp <$> embeddings (getNoteEmbedding h f st).2 !! str "a.md") = Some 1000
  /\ (getNoteEmbedding h (example_file "a.md" 500) st) = (Ok [1; 0]%float, st).
Proof. by vm_compute. Qed.

(** ** The cache does not record the backend *)

(** C4, as the code has it.  The reuse decision of cache-or-compute looks at
    the entry's timestamp and the document's modification time and at nothing
    else: an entry at least as new as the document is reused under every
    setting of the backend and of the API key, whichever backend produced it,
    and no embedding is computed. *)
Theorem getNoteEmbedding_reuse_ignores_backend (h : Host) (f : TFile) (st : state)
    (item : EmbeddingCacheItem) (remote : bool) (key : jsstring) :
  embeddings st !! path f = Some item ->
  mtime f <= timestamp item ->
  getNoteEmbedding h f (set_settings (with_backend remote key (settings st)) st)
    = (Ok (embedding item), set_settings (with_backend remote key (settings st)) st).
Proof.
  intros Hitem Hle. apply getNoteEmbedding_hit, cached_Some.
  exists item. by repeat split.
Qed.

Lemma getNoteEmbedding_reuse_ignores_backend_witness :
  let f := example_file "a.md" 50 in
  let h := sample_host [f] [doc "a.md" "time and money"] (Values [1; 2; 3]%float) in
  let item := {| embedding := [1; 0]%float; timestamp := 60 |} in
  let st := sample_state DEFAULT_SETTINGS (<[str "a.md" := item]> ∅) in
  (embeddings st !! path f = Some item /\ mtime f <= timestamp item)
  /\ getNoteEmbedding h f (set_settings (with_backend true (str "k") (settings st)) st)
     = (Ok (embedding item), set_settings (with_backend true (str "k") (settings st)) st).
Proof.
  intros f h item st.
  assert (H1 : embeddings st !! path f = Some item) by (by vm_compute).
  assert (H2 : mtime f <= timestamp item) by (by vm_compute).
  split; [by split|].
  exact (getNoteEmbedding_reuse_ignores_backend h f st item true (str "k") H1 H2).
Defined.

(** C4, as the specification states it, fails: a vector cached under the
    local backend is served again after the backend is switched to the
    remote one, although the remote backend would now produce a vector of
    another dimension; the two do not compare (similarity [0]). *)
Lemma backend_switch_reuses_cache_counterexample :
  let f := example_file "a.md" 50 in
  let h := sample_host [f] [doc "a.md" "time and money"] (Values [1; 2; 3]%float) in
  let st0 := sample_state DEFAULT_SETTINGS ∅ in
  let first := getNoteEmbedding h f st0 in
  let st1 := set_settings (with_backend true (str "k") (settings first.2)) first.2 in
  let second := getNoteEmbedding h f st1 in
  first.1 = getLocalEmbedding (str "time and money")
  /\ second = (first.1, st1)
  /\ (getEmbedding h (str "time and money") st1).1 = Ok [1; 2; 3]%float
  /\ (exists v, first.1 = Ok v /\ length v = 200%nat
                /\ cosineSimilarity [1; 2; 3]%float v = 0%float).
Proof.
  repeat split; try (by vm_compute).
  eexists. split; [by vm_compute|]. split; by vm_compute.
Qed.

(** ** A warm cache *)

Lemma score_files_warm (h : Host) (currentFile : TFile) (query : list float)
    (files : list TFile) (acc : list SimilarNoteResult) (st : state) :
  (forall f, f ∈ files -> is_Some (cached f st)) ->
  score_files h currentFile query files acc st =
    (Ok (fold_left
           (fun acc c => push_if_similar (minSimilarityScore (settings st)) query acc c.1 c.2)
           (cached_candidates currentFile st files) acc),
     st).
Proof.
  revert acc. induction files as [|f files IH]; intros acc Hwarm; [done|].
  cbn [score_files cached_candidates flat_map].
  unfold mbind at 1, M_bind at 1, gets at 1. unfold skipped at 1.
  destruct (jsstring_eqb (path f) (path currentFile) || shouldIgnoreFile (settings st) f).
  - cbn [app]. apply IH. intros g Hg. apply Hwarm. by right.
  - destruct (Hwarm f (list_elem_of_here _ _)) as [e He]. rewrite He.
    unfold mbind, M_bind. rewrite (getNoteEmbedding_hit h f st e He).
    cbn [app fold_left fst snd]. apply IH. intros g Hg. apply Hwarm. by right.
Qed.

Lemma find_similar_warm (h : Host) (currentFile : TFile) (st : state) (query : list float) :
  cached currentFile st = Some query ->
  (forall f, f ∈ getMarkdownFiles h -> is_Some (cached f st)) ->
  find_similar h currentFile st =
    (Ok (rank query (cached_candidates currentFile st (getMarkdownFiles h))
           (minSimilarityScore (settings st)) (numSimilarNotes (settings st))),
     st).
Proof.
  intros Hq Hwarm. unfold find_similar, mbind, M_bind.
  rewrite (getNoteEmbedding_hit h currentFile st query Hq).
  by rewrite (score_files_warm h currentFile query _ [] st Hwarm).
Qed.

(** C8.  With a warm cache (the current document and every document of the
    vault have a cache entry at least as new as their modification time),
    [findSimilarNotes] shows the ranking of the cached vectors and changes
    nothing but the notices: no document is read, [getEmbedding] is not
    called, nothing is fetched, the clock is not read and the cache is left
    as it was.  A second call right after the first shows the same results in
    the same order, again without any of these. *)
Theorem findSimilarNotes_warm_idempotent (h : Host) (currentFile : TFile) (st : state) :
  fresh currentFile st ->
  (forall f, f ∈ getMarkdownFiles h -> fresh f st) ->
  exists results,
    let first := findSimilarNotes h (Some (Some currentFile)) st in
    let second := findSimilarNotes h (Some (Some currentFile)) first.2 in
    first.1 = Shown results /\ second.1 = Shown results
    /\ (exists query, cached currentFile st = Some query
          /\ results = rank query (cached_candidates currentFile st (getMarkdownFiles h))
                         (minSimilarityScore (settings st)) (numSimilarNotes (settings st)))
    /\ embeddings first.2 = embeddings st /\ embeddings second.2 = embeddings st
    /\ embedCalls first.2 = embedCalls st /\ embedCalls second.2 = embedCalls st
    /\ reads first.2 = reads st /\ reads second.2 = reads st
    /\ fetches first.2 = fetches st /\ fetches second.2 = fetches st
    /\ clockReads first.2 = clockReads st /\ clockReads second.2 = clockReads st.
Proof.
  intros Hcur Hall.
  assert (Hwarm : forall st', embeddings st' = embeddings st ->
            forall f, fresh f st -> cached f st' = cached f st /\ is_Some (cached f st')).
  { intros st' Hemb f (item & Hitem & Hle).
    assert (Hc : forall s, embeddings s = embeddings st -> cached f s = Some (embedding item)).
    { intros s Hs. apply cached_Some. exists item. by rewrite Hs. }
    rewrite (Hc st' Hemb), (Hc st eq_refl). eauto. }
  destruct Hcur as (item & Hitem & Hle).
  assert (Hq : forall s, embeddings s = embeddings st ->
                 cached currentFile s = Some (embedding item)).
  { intros s Hs. apply cached_Some. exists item. by rewrite Hs. }
  set (st1 := log_notice NoticeFinding st).
  set (st2 := log_notice NoticeFinding st1).
  exists (rank (embedding item) (cached_candidates currentFile st (getMarkdownFiles h))
            (minSimilarityScore (settings st)) (numSimilarNotes (settings st))).
  cbn zeta. unfold findSimilarNotes. fold st1.
  rewrite (find_similar_warm h currentFile st1 (embedding item) (Hq st1 eq_refl))
    by (intros f Hf; by apply (Hwarm st1 eq_refl f), Hall).
  cbn [fst snd]. fold st2.
  rewrite (find_similar_warm h currentFile st2 (embedding item) (Hq st2 eq_refl))
    by (intros f Hf; by apply (Hwarm st2 eq_refl f), Hall).
  cbn [fst snd].
  split; [reflexivity|]. split; [reflexivity|].
  split; [exists (embedding item); split; [by apply Hq|reflexivity]|].
  by repeat split.
Qed.

Lemma findSimilarNotes_warm_idempotent_witness :
  let a := example_file "a.md" 50 in
  let b := example_file "b.md" 50 in
  let c := example_file "c.md" 50 in
  let h := sample_host [a; b; c] [] Rejected in
  let entry v := {| embedding := v; timestamp := 60 |} in
  let cache := <[str "a.md" := entry [1; 0]%float]>
                 (<[str "b.md" := entry [1; 1]%float]>
                    (<[str "c.md" := entry [2; 0]%float]> ∅)) in
  let st := sample_state (with_floor 0.5%float DEFAULT_SETTINGS) cache in
  (fresh a st /\ (forall f, f ∈ getMarkdownFiles h -> fresh f st))
  /\ exists results,
    let first := findSimilarNotes h (Some (Some a)) st in
    let second := findSimilarNotes h (Some (Some a)) first.2 in
    first.1 = Shown results /\ second.1 = Shown results
    /\ (exists query, cached a st = Some query
          /\ results = rank query (cached_candidates a st (getMarkdownFiles h))
                         (minSimilarityScore (settings st)) (numSimilarNotes (settings st)))
    /\ embeddings first.2 = embeddings st /\ embeddings second.2 = embeddings st
    /\ embedCalls first.2 = embedCalls st /\ embedCalls second.2 = embedCalls st
    /\ reads first.2 = reads st /\ reads second.2 = reads st
    /\ fetches first.2 = fetches st /\ fetches second.2 = fetches st
    /\ clockReads first.2 = clockReads st /\ clockReads second.2 = clockReads st.
Proof.
  intros a b c h entry cache st.
  assert (Ha : fresh a st).
  { exists (entry [1; 0]%float). split; by vm_compute. }
  assert (Hall : forall f, f ∈ getMarkdownFiles h -> fresh f st).
  { intros f Hf. simpl in Hf. rewrite !elem_of_cons, elem_of_nil in Hf.
    destruct Hf as [->|[->|[->|[]]]].
    - exact Ha.
    - exists (entry [1; 1]%float). split; by vm_compute.
    - exists (entry [2; 0]%float). split; by vm_compute. }
  split; [by split|].
  exact (findSimilarNotes_warm_idempotent h a st Ha Hall).
Defined.

Example findSimilarNotes_warm_sample :
  let a := example_file "a.md" 50 in
  let b := example_file "b.md" 50 in
  let c := example_file "c.md" 50 in
  let h := sample_host [a; b; c] [] Rejected in
  let entry v := {| embedding := v; timestamp := 60 |} in
  let cache := <[str "a.md" := entry [1; 0]%float]>
                 (<[str "b.md" := entry [1; 1]%float]>
                    (<[str "c.md" := entry [2; 0]%float]> ∅)) in
  let st := sample_state (with_floor 0.5%float DEFAULT_SETTINGS) cache in
  (findSimilarNotes h (Some (Some a)) st).1
    = Shown [ {| file := c; score := 1 |};
              {| file := b; score := 0x1.6a09e667f3bccp-1 |} ].
Proof. by vm_compute. Qed.

(** ** A missing API key *)



Lemma agree_lift {A} (r : res A) : agree (lift r) (lift r).
Proof. by intros st st' HR. Qed.








Lemma score_files_cons (h : Host) (currentFile : TFile) (query : list float)
    (f : TFile) (files : list TFile) (acc : list SimilarNoteResult) (st : state) :
  score_files h currentFile query (f :: files) acc st =
    if jsstring_eqb (path f) (path currentFile) || shouldIgnoreFile (settings st) f then
      score_files h currentFile query files acc st
    else
      (getNoteEmbedding h f ≫= fun e =>
         score_files h currentFile query files
           (push_if_similar (minSimilarityScore (settings st)) query acc f e)) st.
Proof.
  cbn [score_files]. unfold mbind at 1, M_bind at 1, gets at 1.
  by destruct (jsstring_eqb (path f) (path currentFile) || shouldIgnoreFile (settings st) f).
Qed.










Example missing_key_sample :
  let a := example_file "a.md" 50 in
  let b := example_file "b.md" 50 in
  let c := example_file "c.md" 50 in
  let h := sample_host [a; b; c]
             [doc "a.md" "the cat sat"; doc "b.md" "the dog sat";
              doc "c.md" "quantum entanglement theory"] (Values [1; 2; 3]%float) in
  let blank := sample_state (with_floor 0.5%float (with_backend true (str "  ") DEFAULT_SETTINGS)) ∅ in
  let empty := sample_state (with_floor 0.5%float (with_backend true [] DEFAULT_SETTINGS)) ∅ in
  (findSimilarNotes h (Some (Some a)) blank).1
    = Shown [ {| file := b; score := 0x1.5555555555557p-1 |} ]
  /\ (findSimilarNotes h (Some (Some a)) empty).1
    = Shown [ {| file := b; score := 0x1.5555555555557p-1 |} ]
  /\ fetches (findSimilarNotes h (Some (Some a)) blank).2 = 0%nat
  /\ notices (getEmbedding h (str "the cat sat") blank).2 = [NoticeFallback; NoticeMissingKey]
  /\ notices (getEmbedding h (str "the cat sat") empty).2 = [].
Proof. by vm_compute. Qed.

(** ** A candidate that cannot be resolved *)

(** A run of [getNoteEmbedding] caches nothing under a path that cannot be
    read, and leaves the settings alone. *)
Lemma getNoteEmbedding_unreadable_path (h : Host) (g : TFile) (st : state) (p : jsstring) :
  vaultRead h p = None ->
  embeddings (getNoteEmbedding h g st).2 !! p = embeddings st !! p
  /\ settings (getNoteEmbedding h g st).2 = settings st.
Proof.
  intros Hp. destruct (cached g st) as [e|] eqn:Hc.
  - by rewrite (getNoteEmbedding_hit h g st e Hc).
  - rewrite (getNoteEmbedding_miss h g st Hc).
    destruct (vaultRead h (path g)) as [content|] eqn:Hg; [|done].
    destruct (getEmbedding_frame h content (log_read (path g) st)) as (Hs & He & _).
    destruct (getEmbedding h content (log_read (path g) st)) as [[e|err] st1]; simpl in *.
    + split; [|done]. rewrite lookup_insert_ne by congruence. by rewrite He.
    + by rewrite He.
Qed.

Lemma getNoteEmbedding_unreadable (h : Host) (f : TFile) (st : state) :
  cached f st = None -> vaultRead h (path f) = None ->
  (getNoteEmbedding h f st).1 = Err ReadRejected.
Proof. intros Hc Hr. by rewrite (getNoteEmbedding_miss h f st Hc), Hr. Qed.

Lemma cached_unchanged (f : TFile) (st st' : state) :
  embeddings st' !! path f = embeddings st !! path f -> cached f st' = cached f st.
Proof. intros H. unfold cached. by rewrite H. Qed.

Lemma score_files_aborts (h : Host) (currentFile : TFile) (query : list float)
    (f : TFile) (files : list TFile) (acc : list SimilarNoteResult) (st : state) :
  f ∈ files -> skipped currentFile (settings st) f = false ->
  cached f st = None -> vaultRead h (path f) = None ->
  exists e, (score_files h currentFile query files acc st).1 = Err e.
Proof.
  revert acc st. induction files as [|g files IH]; intros acc st Hin Hskip Hc Hr.
  - by apply elem_of_nil in Hin.
  - rewrite score_files_cons.
    destruct (jsstring_eqb (path g) (path currentFile) || shouldIgnoreFile (settings st) g)
      eqn:Hg.
    + apply elem_of_cons in Hin as [->|Hin]; [unfold skipped in Hskip; congruence|].
      by apply IH.
    + unfold mbind, M_bind.
      destruct (getNoteEmbedding_unreadable_path h g st (path f) Hr) as [He Hs].
      destruct (getNoteEmbedding h g st) as [[e|err] st1] eqn:Hrun; simpl in *; [|eauto].
      apply elem_of_cons in Hin as [->|Hin].
      * pose proof (getNoteEmbedding_unreadable h g st Hc Hr) as H. by rewrite Hrun in H.
      * apply IH; [done| by rewrite Hs | | done].
        by rewrite (cached_unchanged f st st1 He).
Qed.

(** C1, as the code has it.  Candidates are not resolved in isolation: the
    loop of [findSimilarNotes] has no handler of its own.  When a candidate
    (a file of the vault that is neither the current file nor ignored) has no
    fresh cache entry and cannot be read, the whole call ends in the [catch]
    branch: the error notice is raised and no result list is shown. *)
Theorem findSimilarNotes_aborts_on_unreadable_candidate (h : Host) (currentFile f : TFile)
    (st : state) :
  f ∈ getMarkdownFiles h ->
  skipped currentFile (settings st) f = false ->
  ~ fresh f st ->
  vaultRead h (path f) = None ->
  exists e older,
    (findSimilarNotes h (Some (Some currentFile)) st).1 = Failed e
    /\ notices (findSimilarNotes h (Some (Some currentFile)) st).2 = NoticeError :: older.
Proof.
  intros Hin Hskip Hstale Hr. apply cached_None in Hstale.
  unfold findSimilarNotes, find_similar, mbind, M_bind.
  set (st0 := log_notice NoticeFinding st).
  destruct (getNoteEmbedding_unreadable_path h currentFile st0 (path f) Hr) as [He Hs].
  destruct (getNoteEmbedding h currentFile st0) as [[query|err] st1]; simpl in *; [|eauto].
  destruct (score_files_aborts h currentFile query f (getMarkdownFiles h) [] st1)
    as [e Hfail]; [done| by rewrite Hs | | done |].
  { rewrite (cached_unchanged f st0 st1 He). exact Hstale. }
  destruct (score_files h currentFile query (getMarkdownFiles h) [] st1) as [[r|e'] st2];
    simpl in *; [done|eauto].
Qed.

Lemma findSimilarNotes_aborts_on_unreadable_candidate_witness :
  let a := example_file "a.md" 50 in
  let b := example_file "b.md" 50 in
  let c := example_file "c.md" 50 in
  let h := sample_host [a; b; c] [doc "a.md" "the cat sat"; doc "c.md" "the dog sat"] Rejected in
  let st := sample_state (with_floor 0.5%float DEFAULT_SETTINGS) ∅ in
  (b ∈ getMarkdownFiles h /\ skipped a (settings st) b = false /\ ~ fresh b st
   /\ vaultRead h (path b) = None)
  /\ exists e older,
       (findSimilarNotes h (Some (Some a)) st).1 = Failed e
       /\ notices (findSimilarNotes h (Some (Some a)) st).2 = NoticeError :: older.
Proof.
  intros a b c h st.
  assert (H1 : b ∈ getMarkdownFiles h) by (simpl; rewrite !elem_of_cons; tauto).
  assert (H2 : skipped a (settings st) b = false) by reflexivity.
  assert (H3 : ~ fresh b st).
  { intros (item & Hitem & _). simpl in Hitem. by rewrite lookup_empty in Hitem. }
  assert (H4 : vaultRead h (path b) = None) by reflexivity.
  split; [by repeat split|].
  exact (findSimilarNotes_aborts_on_unreadable_candidate h a b st H1 H2 H3 H4).
Defined.

(** C1, as the specification states it, fails: with one unreadable candidate
    among readable ones the call does not return the ranking of the remaining
    corpus (which the same call returns once the unreadable file is no longer
    listed); it ends in the [catch] branch with the read error and shows
    nothing. *)
Lemma unreadable_candidate_aborts_counterexample :
  let a := example_file "a.md" 50 in
  let b := example_file "b.md" 50 in
  let c := example_file "c.md" 50 in
  let contents := [doc "a.md" "the cat sat"; doc "c.md" "the dog sat"] in
  let st := sample_state (with_floor 0.5%float DEFAULT_SETTINGS) ∅ in
  (findSimilarNotes (sample_host [a; b; c] contents Rejected) (Some (Some a)) st).1
    = Failed ReadRejected
  /\ (findSimilarNotes (sample_host [a; c] contents Rejected) (Some (Some a)) st).1
    = Shown [ {| file := c; score := 0x1.5555555555557p-1 |} ].
Proof. by vm_compute. Qed.

(** ** What [findSimilarNotes] shows is a ranking *)

Lemma getNoteEmbedding_settings (h : Host) (f : TFile) (st : state) :
  settings (getNoteEmbedding h f st).2 = settings st.
Proof.
  destruct (cached f st) as [e|] eqn:Hc.
  - by rewrite (getNoteEmbedding_hit h f st e Hc).
  - rewrite (getNoteEmbedding_miss h f st Hc).
    destruct (vaultRead h (path f)) as [content|]; [|done].
    destruct (getEmbedding_frame h content (log_read (path f) st)) as (Hs & _).
    by destruct (getEmbedding h content (log_read (path f) st)) as [[e|err] st1].
Qed.

Lemma score_files_scores (h : Host) (currentFile : TFile) (query : list float)
    (files : list TFile) (acc scores : list SimilarNoteResult) (st st' : state) :
  score_files h currentFile query files acc st = (Ok scores, st') ->
  settings st' = settings st
  /\ exists candidates,
       scores = fold_left
                  (fun acc c => push_if_similar (minSimilarityScore (settings st)) query acc c.1 c.2)
                  candidates acc.
Proof.
  revert acc st. induction files as [|f files IH]; intros acc st.
  - intros [= <- <-]. split; [done|]. by exists [].
  - rewrite score_files_cons.
    destruct (jsstring_eqb (path f) (path currentFile) || shouldIgnoreFile (settings st) f);
      [apply IH|].
    unfold mbind, M_bind. pose proof (getNoteEmbedding_settings h f st) as Hs.
    destruct (getNoteEmbedding h f st) as [[e|err] st1]; [|done]. simpl in Hs.
    intros Hrun. apply IH in Hrun as (Hs' & candidates & ->). rewrite Hs in *.
    split; [done|]. by exists ((f, e) :: candidates).
Qed.

(** Whenever [findSimilarNotes] shows results, they are the ranking [rank] of
    some list of resolved candidates against the vector of the current file,
    under the configured floor and cap. *)
Lemma findSimilarNotes_shows_rank (h : Host) (currentFile : TFile) (st : state)
    (results : list SimilarNoteResult) :
  (findSimilarNotes h (Some (Some currentFile)) st).1 = Shown results ->
  exists query candidates,
    results = rank query candidates
                (minSimilarityScore (settings st)) (numSimilarNotes (settings st)).
Proof.
  unfold findSimilarNotes, find_similar, mbind, M_bind.
  set (st0 := log_notice NoticeFinding st).
  pose proof (getNoteEmbedding_settings h currentFile st0) as Hs.
  destruct (getNoteEmbedding h currentFile st0) as [[query|err] st1]; [|done].
  destruct (score_files h currentFile query (getMarkdownFiles h) [] st1)
    as [[scores|err] st2] eqn:Hrun; [|done].
  apply score_files_scores in Hrun as (Hs' & candidates & ->).
  simpl in *. intros [= <-]. exists query, candidates.
  unfold rank. by rewrite Hs', Hs.
Qed.

(** * Further properties of the code *)

(** ** The string hash as arithmetic *)

Lemma to_int32_range (z : Z) : - 2 ^ 31 <= to_int32 z < 2 ^ 31.
Proof. unfold to_int32. pose proof (Z.mod_pos_bound (z + 2 ^ 31) (2 ^ 32)). lia. Qed.

Lemma to_int32_wraps (z : Z) : exists k, to_int32 z = z + k * 2 ^ 32.
Proof.
  exists (- ((z + 2 ^ 31) / 2 ^ 32)). unfold to_int32.
  rewrite (Z.mod_eq (z + 2 ^ 31) (2 ^ 32)) by lia. lia.
Qed.

Lemma to_int32_congruent (z k : Z) : to_int32 (z + k * 2 ^ 32) = to_int32 z.
Proof.
  unfold to_int32. replace (z + k * 2 ^ 32 + 2 ^ 31) with (z + 2 ^ 31 + k * 2 ^ 32) by lia.
  by rewrite Z_mod_plus_full.
Qed.

Lemma to_int32_fixed (z : Z) : - 2 ^ 31 <= z < 2 ^ 31 -> to_int32 z = z.
Proof. intros H. unfold to_int32. rewrite Z.mod_small by lia. lia. Qed.

Lemma js_and_diag (x : Z) : js_and x x = to_int32 x.
Proof.
  unfold js_and. rewrite Z.land_diag. apply to_int32_fixed, to_int32_range.
Qed.

(** One round of the loop is [31 * hash + char], wrapped to 32 bits. *)
Lemma hash_step_polynomial (hash char : Z) :
  hash_step hash char = to_int32 (31 * hash + char).
Proof.
  unfold hash_step. rewrite js_and_diag. unfold js_shl.
  rewrite Z.shiftl_mul_pow2 by lia.
  destruct (to_int32_wraps hash) as [k1 ->].
  destruct (to_int32_wraps ((hash + k1 * 2 ^ 32) * 2 ^ 5)) as [k2 ->].
  replace ((hash + k1 * 2 ^ 32) * 2 ^ 5 + k2 * 2 ^ 32 - hash + char)
    with (31 * hash + char + (32 * k1 + k2) * 2 ^ 32) by lia.
  apply to_int32_congruent.
Qed.

Lemma hash_step_wrapped (a char : Z) :
  hash_step (to_int32 a) char = to_int32 (31 * a + char).
Proof.
  rewrite hash_step_polynomial.
  destruct (to_int32_wraps a) as [k Hk]. rewrite Hk.
  replace (31 * (a + k * 2 ^ 32) + char) with (31 * a + char + 31 * k * 2 ^ 32) by lia.
  apply to_int32_congruent.
Qed.

Lemma fold_left_step {A B} (f : A -> B -> A) (x : B) (l : list B) (a : A) :
  fold_left f (x :: l) a = fold_left f l (f a x).
Proof. reflexivity. Qed.

Lemma hash_loop_polynomial (s : jsstring) (a : Z) :
  fold_left hash_step s (to_int32 a) = to_int32 (fold_left (fun h c => 31 * h + c) s a).
Proof.
  revert a. induction s as [|c s IH]; intros a; [reflexivity|].
  rewrite !fold_left_step, hash_step_wrapped. apply IH.
Qed.

(** X1.  [simpleHash] is the absolute value of the base-31 polynomial of the
    code units wrapped to a signed 32-bit integer (the shift-and-subtract of
    the loop is a multiplication by 31), so it lies in [0, 2^31]; two
    strings whose polynomials differ by a multiple of [2^32] collide. *)
Theorem simpleHash_polynomial (s : jsstring) :
  simpleHash s = Z.abs (to_int32 (polynomial31 s))
  /\ 0 <= simpleHash s <= 2 ^ 31
  /\ (forall s' k, polynomial31 s' = polynomial31 s + k * 2 ^ 32 ->
        simpleHash s' = simpleHash s).
Proof.
  assert (H : forall t, simpleHash t = Z.abs (to_int32 (polynomial31 t))).
  { intros t. unfold simpleHash, polynomial31. f_equal.
    exact (hash_loop_polynomial t 0). }
  split; [apply H|]. split.
  - rewrite H. pose proof (to_int32_range (polynomial31 s)). lia.
  - intros s' k Hk. by rewrite !H, Hk, to_int32_congruent.
Qed.

Example simpleHash_collision :
  simpleHash (str "Aa") = simpleHash (str "BB")
  /\ simpleHash (str "polygenelubricants") = simpleHash (str "GydZG_").
Proof. by vm_compute. Qed.

(** ** Symmetry of the similarity *)

Lemma float_mul_comm (x y : float) : (x * y)%float = (y * x)%float.
Proof.
  apply Prim2SF_inj. rewrite !mul_spec. unfold SF64mul, SFmul.
  destruct (Prim2SF x) as [sx|sx| |sx mx ex], (Prim2SF y) as [sy|sy| |sy my ey];
    try reflexivity; rewrite (xorb_comm sx sy); try reflexivity.
  by rewrite (Pos.mul_comm mx my), (Z.add_comm ex ey).
Qed.

Lemma cosine_loop_swap (a b : list float) (d na nb : float) :
  fold_left cosine_step (combine b a) (d, nb, na)
  = (let '(d', na', nb') := fold_left cosine_step (combine a b) (d, na, nb) in
     (d', nb', na')).
Proof.
  revert b d na nb. induction a as [|x a IH]; intros [|y b] d na nb; simpl; try done.
  rewrite (float_mul_comm y x). apply IH.
Qed.

(** X2.  Cosine similarity is symmetric on all vectors, bit for bit:
    [cosineSimilarity a b = cosineSimilarity b a], whatever the lengths and
    the components (also infinities and [NaN]). *)
Theorem cosineSimilarity_symmetric (a b : list float) :
  cosineSimilarity a b = cosineSimilarity b a.
Proof.
  unfold cosineSimilarity. rewrite (Nat.eqb_sym (length b) (length a)).
  destruct (length a =? length b)%nat; simpl; [|done].
  rewrite (cosine_loop_swap a b 0 0 0).
  destruct (fold_left cosine_step (combine a b) (0, 0, 0)%float) as [[d na] nb].
  rewrite (orb_comm (nb =? 0)%float). destruct ((na =? 0) || (nb =? 0))%float; [done|].
  by rewrite (float_mul_comm (sqrt nb)).
Qed.

(** ** The ranking keeps the best candidates *)

Lemma insert_by_Permutation {A} (before : A -> A -> bool) (x : A) (l : list A) :
  insert_by before x l ≡ₚ x :: l.
Proof.
  induction l as [|y l IH]; simpl; [done|].
  destruct (before x y); [done|]. rewrite IH. apply Permutation_swap.
Qed.

Lemma sort_by_Permutation {A} (before : A -> A -> bool) (l : list A) :
  sort_by before l ≡ₚ l.
Proof.
  unfold sort_by.
  assert (H : forall acc, fold_left (fun sorted x => insert_by before x sorted) l acc ≡ₚ acc ++ l).
  { induction l as [|x l IH]; intros acc; simpl; [by rewrite app_nil_r|].
    rewrite IH, insert_by_Permutation. simpl. apply Permutation_middle. }
  by rewrite H.
Qed.

Lemma scored_fold_eq (query : list float) (floor : float)
    (candidates : list (TFile * list float)) (acc : list SimilarNoteResult) :
  fold_left (fun acc c => push_if_similar floor query acc c.1 c.2) candidates acc
  = acc ++ scored query floor candidates.
Proof.
  revert acc. induction candidates as [|c cs IH]; intros acc; simpl.
  - by rewrite app_nil_r.
  - rewrite IH. unfold scored, passing, push_if_similar. rewrite filter_cons.
    destruct (decide ((floor <=? cosineSimilarity query c.2)%float = true)) as [Hle|Hle].
    + rewrite Hle. simpl. by rewrite <- app_assoc.
    + apply not_true_is_false in Hle. by rewrite Hle.
Qed.

Lemma scored_passes (query : list float) (floor : float)
    (candidates : list (TFile * list float)) :
  Forall (passes floor) (scored query floor candidates).
Proof.
  unfold scored, passing. apply Forall_forall. intros r Hr.
  apply list_elem_of_fmap in Hr as (c & -> & Hc).
  apply list_elem_of_filter in Hc as [Hc _]. exact Hc.
Qed.

(** X3.  The ranking is the top of the candidates: together with some list
    [rest] of left-out results it is a rearrangement of all the candidates
    that pass the floor, and no left-out result has a higher score than a
    returned one.  For a cap [cap >= 0] it has exactly [min cap n] entries,
    [n] being the number of candidates that pass the floor. *)
Theorem rank_keeps_the_best (query : list float) (candidates : list (TFile * list float))
    (floor : float) (cap : Z) :
  exists rest,
    rank query candidates floor cap ++ rest ≡ₚ scored query floor candidates
    /\ (forall r o, r ∈ rank query candidates floor cap -> o ∈ rest -> score_ge r o)
    /\ (0 <= cap ->
        Z.of_nat (length (rank query candidates floor cap))
          = Z.min cap (Z.of_nat (length (passing query floor candidates)))).
Proof.
  unfold rank, topResults. rewrite scored_fold_eq. cbn [app].
  set (sorted := sort_by before_desc (scored query floor candidates)).
  assert (Hs : StronglySorted score_ge sorted)
    by (eapply sort_desc_sorted, scored_passes).
  unfold slice0. set (n := Z.to_nat _).
  exists (drop n sorted). split; [|split].
  - rewrite take_drop. apply sort_by_Permutation.
  - intros r o Hr Ho. rewrite <- (take_drop n sorted) in Hs.
    by eapply StronglySorted_app_1_elem_of.
  - intros Hcap. subst n. fold (slice0 cap sorted).
    rewrite (length_slice0 cap sorted Hcap). unfold sorted.
    rewrite length_sort_by. unfold scored. by rewrite length_map.
Qed.

(** ** Ignored files *)

Lemma startsWith_prefix (s p : jsstring) : startsWith s p = true <-> p `prefix_of` s.
Proof.
  revert s. induction p as [|c p IH]; intros [|d s]; simpl.
  - split; [intros _; apply prefix_nil | done].
  - split; [intros _; apply prefix_nil | done].
  - split; [done|]. intros [k Hk]. discriminate.
  - rewrite andb_true_iff, Z.eqb_eq, IH. split.
    + intros [-> Hp]. by apply prefix_cons.
    + intros Hp. split; [by eapply prefix_cons_inv_1 | by eapply prefix_cons_inv_2].
Qed.

(** X4.  [shouldIgnoreFile] ignores a file exactly when its extension is not
    [md] or its path begins with one of the ignored folder strings.  The
    test is on characters, not on path components: the folder string [notes]
    also ignores [notes-old/a.md], and an empty folder string would ignore
    every file. *)
Theorem shouldIgnoreFile_prefix (s : Settings) (f : TFile) :
  (shouldIgnoreFile s f = true <->
     extension f <> str "md"
     \/ exists folder, folder ∈ ignoreFolders s /\ folder `prefix_of` path f)
  /\ ([] ∈ ignoreFolders s -> shouldIgnoreFile s f = true).
Proof.
  assert (H : shouldIgnoreFile s f = true <->
     extension f <> str "md"
     \/ exists folder, folder ∈ ignoreFolders s /\ folder `prefix_of` path f).
  { unfold shouldIgnoreFile, jsstring_eqb.
    rewrite orb_true_iff, negb_true_iff, bool_decide_eq_false, existsb_exists.
    apply or_iff_compat_l. split.
    - intros (folder & Hin & Hp). exists folder.
      by rewrite list_elem_of_In, <- startsWith_prefix.
    - intros (folder & Hin & Hp). exists folder.
      by rewrite <- list_elem_of_In, startsWith_prefix. }
  split; [exact H|].
  intros Hempty. apply H. right. exists []. split; [done|apply prefix_nil].
Qed.

Example shouldIgnoreFile_samples :
  let s := {| apiKey := []; numSimilarNotes := 5; minSimilarityScore := 0.5%float;
              ignoreFolders := [str "notes"]; cacheExpiration := 7;
              useGeminiEmbeddings := false |} in
  shouldIgnoreFile s (example_file "notes/a.md" 1) = true
  /\ shouldIgnoreFile s (example_file "notes-old/a.md" 1) = true
  /\ shouldIgnoreFile s (example_file "archive/notes/a.md" 1) = false
  /\ shouldIgnoreFile s {| path := str "b.txt"; extension := str "txt"; mtime := 1 |} = true.
Proof. by vm_compute. Qed.

(** ** What cache-or-compute touches *)

Lemma getNoteEmbedding_clock (h : Host) (f : TFile) (st : state) (e : list float)
    (st1 : state) :
  getNoteEmbedding h f st = (Ok e, st1) -> cached f st = None ->
  embeddings st1
    = <[path f := {| embedding := e; timestamp := dateNow h (clockReads st) |}]>
        (embeddings st).
Proof.
  intros Hrun Hc. rewrite (getNoteEmbedding_miss h f st Hc) in Hrun.
  destruct (vaultRead h (path f)) as [content|]; [|done].
  destruct (getEmbedding_frame h content (log_read (path f) st)) as (_ & He & Hck & _).
  destruct (getEmbedding h content (log_read (path f) st)) as [[e'|err] st'];
    simpl in *; [|done].
  injection Hrun as <- <-. simpl. by rewrite He, Hck.
Qed.

Lemma getNoteEmbedding_other_paths (h : Host) (f : TFile) (st : state) (p : jsstring) :
  p <> path f -> embeddings (getNoteEmbedding h f st).2 !! p = embeddings st !! p.
Proof.
  intros Hp. destruct (cached f st) as [e|] eqn:Hc.
  - by rewrite (getNoteEmbedding_hit h f st e Hc).
  - destruct (getNoteEmbedding h f st) as [[e|err] st1] eqn:Hrun; simpl.
    + rewrite (getNoteEmbedding_clock h f st e st1 Hrun Hc).
      by rewrite lookup_insert_ne.
    + rewrite (getNoteEmbedding_miss h f st Hc) in Hrun.
      destruct (vaultRead h (path f)) as [content|]; [|by injection Hrun as <- <-].
      destruct (getEmbedding_frame h content (log_read (path f) st)) as (_ & He & _).
      destruct (getEmbedding h content (log_read (path f) st)) as [[e'|err'] st'];
        simpl in *; [done|]. injection Hrun as <- <-. by rewrite He.
Qed.

Lemma getNoteEmbedding_failure_cache (h : Host) (f : TFile) (st : state) (err : error) :
  (getNoteEmbedding h f st).1 = Err err ->
  embeddings (getNoteEmbedding h f st).2 = embeddings st.
Proof.
  intros Herr. destruct (cached f st) as [e|] eqn:Hc.
  - by rewrite (getNoteEmbedding_hit h f st e Hc) in Herr.
  - rewrite (getNoteEmbedding_miss h f st Hc) in Herr |- *.
    destruct (vaultRead h (path f)) as [content|]; [|done].
    destruct (getEmbedding_frame h content (log_read (path f) st)) as (_ & He & _).
    by destruct (getEmbedding h content (log_read (path f) st)) as [[e'|err'] st'].
Qed.

(** X5.  A call of [getNoteEmbedding] for a file leaves the cache entries of
    all other paths as they were; and a call that fails (the read is
    rejected, or the embedder throws) stores nothing: the cache is exactly as
    before. *)
Theorem getNoteEmbedding_frame (h : Host) (f : TFile) (st : state) :
  (forall p, p <> path f ->
     embeddings (getNoteEmbedding h f st).2 !! p = embeddings st !! p)
  /\ (forall err, (getNoteEmbedding h f st).1 = Err err ->
        embeddings (getNoteEmbedding h f st).2 = embeddings st)
  /\ settings (getNoteEmbedding h f st).2 = settings st.
Proof.
  split; [|split].
  - intros p. apply getNoteEmbedding_other_paths.
  - intros err. apply getNoteEmbedding_failure_cache.
  - apply getNoteEmbedding_settings.
Qed.

Lemma getNoteEmbedding_caches (h : Host) (f : TFile) (st st1 : state) (e : list float) :
  getNoteEmbedding h f st = (Ok e, st1) ->
  fresh f st \/ mtime f <= dateNow h (clockReads st) ->
  cached f st1 = Some e.
Proof.
  intros Hrun Hor. destruct (cached f st) as [e0|] eqn:Hc.
  - rewrite (getNoteEmbedding_hit h f st e0 Hc) in Hrun. by injection Hrun as <- <-.
  - destruct Hor as [Hf|Hle]; [by apply cached_None in Hc|].
    apply cached_Some.
    exists {| embedding := e; timestamp := dateNow h (clockReads st) |}.
    split; [|by split].
    by rewrite (getNoteEmbedding_clock h f st e st1 Hrun Hc), lookup_insert_eq.
Qed.

(** X6.  After a successful call of [getNoteEmbedding] the next call for the
    same file is served from the cache, with the same vector and without a
    read, exactly when the entry was fresh already or the clock value the new
    entry was stamped with is not earlier than the file's modification time.
    For a file dated after the clock the recomputed entry is stale at once,
    and every call reads and embeds the file again. *)
Theorem getNoteEmbedding_then_reuse (h : Host) (f : TFile) (st st1 : state)
    (e : list float) :
  getNoteEmbedding h f st = (Ok e, st1) ->
  (getNoteEmbedding h f st1 = (Ok e, st1)
   <-> fresh f st \/ mtime f <= dateNow h (clockReads st)).
Proof.
  intros Hrun. destruct (cached f st) as [e0|] eqn:Hc.
  - rewrite (getNoteEmbedding_hit h f st e0 Hc) in Hrun. injection Hrun as <- <-.
    split; [|intros _; by apply getNoteEmbedding_hit].
    intros _. left. apply cached_Some in Hc as (item & ? & ? & _). by exists item.
  - pose proof (getNoteEmbedding_clock h f st e st1 Hrun Hc) as Hemb.
    pose proof Hc as Hstale. apply cached_None in Hstale.
    split.
    + intros Hagain. right.
      destruct (cached f st1) as [e1|] eqn:Hc1.
      * apply cached_Some in Hc1 as (item & Hitem & Hle & _).
        rewrite Hemb, lookup_insert_eq in Hitem. injection Hitem as <-. exact Hle.
      * pose proof (getNoteEmbedding_miss_reads h f st1 Hc1) as Hr.
        rewrite Hagain in Hr. simpl in Hr.
        apply (f_equal length) in Hr. simpl in Hr. lia.
    + intros Hor. by apply getNoteEmbedding_hit, (getNoteEmbedding_caches h f st).
Qed.

Lemma getNoteEmbedding_then_reuse_witness :
  let f := example_file "a.md" 501 in
  let h := sample_host [f] [doc "a.md" "time and money"] Rejected in
  let st := sample_state DEFAULT_SETTINGS ∅ in
  let e := vector_of (getLocalEmbedding (str "time and money")) in
  let st1 := (getNoteEmbedding h f st).2 in
  getNoteEmbedding h f st = (Ok e, st1)
  /\ (getNoteEmbedding h f st1 = (Ok e, st1)
      <-> fresh f st \/ mtime f <= dateNow h (clockReads st)).
Proof.
  intros f h st e st1.
  assert (H : getNoteEmbedding h f st = (Ok e, st1)) by (by vm_compute).
  split; [exact H|].
  exact (getNoteEmbedding_then_reuse h f st st1 e H).
Defined.

Example getNoteEmbedding_dated_ahead :
  let f := example_file "a.md" 5000 in
  let h := sample_host [f] [doc "a.md" "time and money"] Rejected in
  let st := sample_state DEFAULT_SETTINGS ∅ in
  let st1 := (getNoteEmbedding h f st).2 in
  let st2 := (getNoteEmbedding h f st1).2 in
  reads st1 = [str "a.md"] /\ reads st2 = [str "a.md"; str "a.md"]
  /\ embedCalls st2 = 2%nat.
Proof. by vm_compute. Qed.

(** ** What a search shows, and what it leaves behind *)

Lemma skipped_false (currentFile : TFile) (s : Settings) (f : TFile) :
  skipped currentFile s f = false <->
  path f <> path currentFile /\ shouldIgnoreFile s f = false.
Proof.
  unfold skipped, jsstring_eqb. rewrite orb_false_iff, bool_decide_eq_false. tauto.
Qed.

Lemma score_files_sources (h : Host) (currentFile : TFile) (query : list float)
    (files : list TFile) (acc scores : list SimilarNoteResult) (st st' : state) :
  score_files h currentFile query files acc st = (Ok scores, st') ->
  exists candidates,
    scores = acc ++ scored query (minSimilarityScore (settings st)) candidates
    /\ Forall (fun c => c.1 ∈ files /\ skipped currentFile (settings st) c.1 = false)
         candidates.
Proof.
  revert acc st. induction files as [|f files IH]; intros acc st.
  - intros [= <- <-]. exists []. by rewrite app_nil_r.
  - rewrite score_files_cons.
    destruct (jsstring_eqb (path f) (path currentFile) || shouldIgnoreFile (settings st) f)
      eqn:Hskip.
    + intros Hrun. apply IH in Hrun as (candidates & -> & Hall). exists candidates.
      split; [done|]. eapply Forall_impl; [exact Hall|].
      intros c [? ?]. split; [by right|done].
    + unfold mbind, M_bind. pose proof (getNoteEmbedding_settings h f st) as Hs.
      destruct (getNoteEmbedding h f st) as [[e|err] st1]; [|done]. simpl in Hs.
      intros Hrun. apply IH in Hrun as (candidates & -> & Hall). rewrite Hs in *.
      exists ((f, e) :: candidates). split.
      * rewrite <- (scored_fold_eq query _ ((f, e) :: candidates) acc).
        rewrite <- scored_fold_eq. done.
      * constructor; [split; [by left|exact Hskip]|].
        eapply Forall_impl; [exact Hall|]. intros c [? ?]. split; [by right|done].
Qed.

(** X7.  Every result [findSimilarNotes] shows is a file of the vault
    listing whose path differs from the current file's and which
    [shouldIgnoreFile] does not ignore, and its score is at least the
    configured minimum: the current note and ignored notes are never
    shown. *)
Theorem findSimilarNotes_shows_candidates_only (h : Host) (currentFile : TFile)
    (st : state) (results : list SimilarNoteResult) :
  (findSimilarNotes h (Some (Some currentFile)) st).1 = Shown results ->
  Forall (fun r =>
            file r ∈ getMarkdownFiles h
            /\ path (file r) <> path currentFile
            /\ shouldIgnoreFile (settings st) (file r) = false
            /\ passes (minSimilarityScore (settings st)) r) results.
Proof.
  unfold findSimilarNotes, find_similar, mbind, M_bind.
  set (st0 := log_notice NoticeFinding st).
  pose proof (getNoteEmbedding_settings h currentFile st0) as Hs.
  destruct (getNoteEmbedding h currentFile st0) as [[query|err] st1]; [|done].
  destruct (score_files h currentFile query (getMarkdownFiles h) [] st1)
    as [[scores|err] st2] eqn:Hrun; [|done].
  apply score_files_sources in Hrun as (candidates & -> & Hall).
  simpl in *. rewrite Hs in *. intros [= <-].
  apply Forall_forall. intros r Hr.
  apply slice0_sublist, elem_of_sort_by in Hr.
  pose proof (scored_passes query (minSimilarityScore (settings st)) candidates) as Hp.
  rewrite Forall_forall in Hp. specialize (Hp r Hr).
  unfold scored, passing in Hr. apply list_elem_of_fmap in Hr as (c & -> & Hc).
  apply list_elem_of_filter in Hc as [_ Hc].
  rewrite Forall_forall in Hall. destruct (Hall c Hc) as [Hin Hskip].
  apply skipped_false in Hskip as [? ?]. done.
Qed.

Lemma findSimilarNotes_shows_candidates_only_witness :
  let a := example_file "a.md" 50 in
  let b := example_file "b.md" 50 in
  let c := {| path := str "old/c.md"; extension := str "md"; mtime := 50 |} in
  let s := {| apiKey := []; numSimilarNotes := 5; minSimilarityScore := 0.5%float;
              ignoreFolders := [str "old"]; cacheExpiration := 7;
              useGeminiEmbeddings := false |} in
  let h := sample_host [a; b; c]
             [doc "a.md" "the cat sat"; doc "b.md" "the dog sat";
              doc "old/c.md" "the cat sat"] Rejected in
  let st := sample_state s ∅ in
  let results := [ {| file := b; score := 0x1.5555555555557p-1 |} ] in
  (findSimilarNotes h (Some (Some a)) st).1 = Shown results
  /\ Forall (fun r =>
               file r ∈ getMarkdownFiles h
               /\ path (file r) <> path a
               /\ shouldIgnoreFile (settings st) (file r) = false
               /\ passes (minSimilarityScore (settings st)) r) results.
Proof.
  intros a b c s h st results.
  assert (H : (findSimilarNotes h (Some (Some a)) st).1 = Shown results) by (by vm_compute).
  split; [exact H|].
  exact (findSimilarNotes_shows_candidates_only h a st results H).
Defined.

(** X8.  When the current note has no fresh cache entry and cannot be read,
    [findSimilarNotes] ends in its [catch] branch with the read error, having
    asked for that one read only: no candidate is read or embedded, the clock
    and the network are not touched, and the cache is as before. *)
Theorem findSimilarNotes_unreadable_query (h : Host) (currentFile : TFile) (st : state) :
  ~ fresh currentFile st ->
  vaultRead h (path currentFile) = None ->
  findSimilarNotes h (Some (Some currentFile)) st
    = (Failed ReadRejected,
       log_notice NoticeError (log_read (path currentFile) (log_notice NoticeFinding st))).
Proof.
  intros Hstale Hread. unfold findSimilarNotes, find_similar, mbind, M_bind.
  assert (Hc : cached currentFile (log_notice NoticeFinding st) = None).
  { apply cached_None. intros (item & Hitem & Hle). apply Hstale. by exists item. }
  by rewrite (getNoteEmbedding_miss h currentFile _ Hc), Hread.
Qed.

Lemma findSimilarNotes_unreadable_query_witness :
  let a := example_file "a.md" 50 in
  let b := example_file "b.md" 50 in
  let h := sample_host [a; b] [doc "b.md" "the dog sat"] Rejected in
  let st := sample_state DEFAULT_SETTINGS ∅ in
  (~ fresh a st /\ vaultRead h (path a) = None)
  /\ findSimilarNotes h (Some (Some a)) st
     = (Failed ReadRejected,
        log_notice NoticeError (log_read (path a) (log_notice NoticeFinding st))).
Proof.
  intros a b h st.
  assert (H1 : ~ fresh a st).
  { intros (item & Hitem & _). simpl in Hitem. by rewrite lookup_empty in Hitem. }
  assert (H2 : vaultRead h (path a) = None) by reflexivity.
  split; [by split|].
  exact (findSimilarNotes_unreadable_query h a st H1 H2).
Defined.

(** ** A second search after a first one *)

Lemma cached_same_cache (f : TFile) (st st' : state) :
  embeddings st' = embeddings st -> cached f st' = cached f st.
Proof. intros H. unfold cached. by rewrite H. Qed.

Lemma cached_candidates_same (currentFile : TFile) (st st' : state) (files : list TFile) :
  embeddings st' = embeddings st -> settings st' = settings st ->
  cached_candidates currentFile st' files = cached_candidates currentFile st files.
Proof.
  intros He Hs. unfold cached_candidates. rewrite Hs.
  induction files as [|f files IH]; simpl; [done|].
  by rewrite IH, (cached_same_cache f st st' He).
Qed.

Lemma cached_candidates_cons (currentFile : TFile) (st : state) (g : TFile)
    (files : list TFile) :
  cached_candidates currentFile st (g :: files)
  = (if skipped currentFile (settings st) g then []
     else match cached g st with
          | Some e => [(g, e)]
          | None => []
          end) ++ cached_candidates currentFile st files.
Proof. reflexivity. Qed.

(** The loop over a vault whose candidates are all served from the cache. *)
Lemma score_files_all_cached (h : Host) (currentFile : TFile) (query : list float)
    (files : list TFile) (acc : list SimilarNoteResult) (st : state) :
  (forall f, f ∈ files -> skipped currentFile (settings st) f = false ->
     is_Some (cached f st)) ->
  score_files h currentFile query files acc st =
    (Ok (fold_left
           (fun acc c => push_if_similar (minSimilarityScore (settings st)) query acc c.1 c.2)
           (cached_candidates currentFile st files) acc),
     st).
Proof.
  revert acc. induction files as [|f files IH]; intros acc Hwarm; [done|].
  rewrite score_files_cons. cbn [cached_candidates flat_map]. unfold skipped at 1.
  destruct (jsstring_eqb (path f) (path currentFile) || shouldIgnoreFile (settings st) f)
    eqn:Hskip.
  - cbn [app]. apply IH. intros g Hg. apply Hwarm. by right.
  - destruct (Hwarm f (list_elem_of_here _ _) Hskip) as [e He]. rewrite He.
    unfold mbind, M_bind. rewrite (getNoteEmbedding_hit h f st e He).
    cbn [app fold_left fst snd]. apply IH. intros g Hg. apply Hwarm. by right.
Qed.

(** The loop, replayed against the cache it leaves behind. *)
Lemma score_files_replay (h : Host) (currentFile : TFile) (query : list float)
    (files : list TFile) (acc scores : list SimilarNoteResult) (st st' : state) :
  score_files h currentFile query files acc st = (Ok scores, st') ->
  NoDup (path <$> files) ->
  (forall f n, f ∈ files -> mtime f <= dateNow h n) ->
  settings st' = settings st
  /\ (forall f, (forall g, g ∈ files -> skipped currentFile (settings st) g = false ->
                   path g <> path f) ->
        cached f st' = cached f st)
  /\ (forall f, f ∈ files -> skipped currentFile (settings st) f = false ->
        is_Some (cached f st'))
  /\ scores = fold_left
                (fun acc c =>
                   push_if_similar (minSimilarityScore (settings st)) query acc c.1 c.2)
                (cached_candidates currentFile st' files) acc.
Proof.
  revert acc st. induction files as [|g files IH]; intros acc st Hrun Hnd Hclock.
  - injection Hrun as <- <-. repeat split; try done. intros f Hf. by apply elem_of_nil in Hf.
  - rewrite fmap_cons in Hnd. apply NoDup_cons in Hnd as [Hg Hnd].
    assert (Hclock' : forall f n, f ∈ files -> mtime f <= dateNow h n)
      by (intros f n Hf; apply Hclock; by right).
    rewrite score_files_cons in Hrun.
    destruct (jsstring_eqb (path g) (path currentFile) || shouldIgnoreFile (settings st) g)
      eqn:Hskip.
    + destruct (IH acc st Hrun Hnd Hclock') as (Hs & Hframe & Hall & Hsc).
      split; [done|]. split; [|split].
      * intros f Hf. apply Hframe. intros g' Hg'. apply Hf. by right.
      * intros f Hf Hfs. apply elem_of_cons in Hf as [->|Hf].
        -- unfold skipped in Hfs. congruence.
        -- by apply Hall.
      * rewrite Hsc, cached_candidates_cons. unfold skipped.
        by rewrite Hs, Hskip.
    + unfold mbind, M_bind in Hrun.
      pose proof (getNoteEmbedding_settings h g st) as Hs1.
      destruct (getNoteEmbedding h g st) as [[e|err] st1] eqn:Hg1; [|done]. simpl in Hs1.
      destruct (IH _ st1 Hrun Hnd Hclock') as (Hs & Hframe & Hall & Hsc).
      rewrite Hs1 in *.
      assert (Hge : cached g st' = Some e).
      { rewrite (Hframe g).
        - apply (getNoteEmbedding_caches h g st st1 e Hg1). right.
          apply Hclock. by left.
        - intros g' Hg' _ Heq. apply Hg. rewrite <- Heq.
          apply list_elem_of_fmap. by exists g'. }
      split; [done|]. split; [|split].
      * intros f Hf. rewrite Hframe by (intros g' Hg'; apply Hf; by right).
        apply cached_unchanged.
        pose proof (getNoteEmbedding_other_paths h g st (path f)) as Ho.
        rewrite Hg1 in Ho. apply Ho. intros Heq.
        by apply (Hf g (list_elem_of_here _ _) Hskip).
      * intros f Hf Hfs. apply elem_of_cons in Hf as [->|Hf]; [by rewrite Hge|].
        by apply Hall.
      * rewrite Hsc, cached_candidates_cons. unfold skipped.
        by rewrite Hs, Hskip, Hge.
Qed.

(** X9.  A second search right after a successful one repeats it from the
    cache.  When the vault lists no path twice and the clock is not behind
    the modification time of any document, the call of [findSimilarNotes]
    that follows a call which showed results shows the same results in the
    same order and changes nothing but the notices: no document is read,
    nothing is embedded or fetched, the clock is not read, and the cache
    stays as the first call left it. *)
Theorem findSimilarNotes_again (h : Host) (currentFile : TFile) (st st1 : state)
    (results : list SimilarNoteResult) :
  findSimilarNotes h (Some (Some currentFile)) st = (Shown results, st1) ->
  NoDup (path <$> getMarkdownFiles h) ->
  (forall f n, f = currentFile \/ f ∈ getMarkdownFiles h -> mtime f <= dateNow h n) ->
  findSimilarNotes h (Some (Some currentFile)) st1
    = (Shown results, log_notice NoticeFinding st1).
Proof.
  intros Hrun Hnd Hclock. unfold findSimilarNotes in Hrun |- *.
  set (st0 := log_notice NoticeFinding st) in *.
  destruct (find_similar h currentFile st0) as [[r|err] s'] eqn:Hfind; [|done].
  injection Hrun as -> ->.
  unfold find_similar, mbind, M_bind in Hfind.
  pose proof (getNoteEmbedding_settings h currentFile st0) as Hs0.
  destruct (getNoteEmbedding h currentFile st0) as [[query|err] s1] eqn:Hq; [|done].
  simpl in Hs0.
  destruct (score_files h currentFile query (getMarkdownFiles h) [] s1)
    as [[scores|err] s2] eqn:Hloop; [|done].
  simpl in Hfind. injection Hfind as <- <-.
  destruct (score_files_replay h currentFile query _ [] scores s1 s2 Hloop Hnd)
    as (Hs & Hframe & Hall & Hscores).
  { intros f n Hf. apply Hclock. by right. }
  assert (Hquery : cached currentFile s2 = Some query).
  { rewrite Hframe.
    - apply (getNoteEmbedding_caches h currentFile st0 s1 query Hq). right.
      apply Hclock. by left.
    - intros g _ Hg. by apply skipped_false in Hg as [? _]. }
  set (s3 := log_notice NoticeFinding s2).
  unfold find_similar, mbind, M_bind.
  rewrite (getNoteEmbedding_hit h currentFile s3 query) by exact Hquery.
  rewrite (score_files_all_cached h currentFile query (getMarkdownFiles h) [] s3).
  - simpl. rewrite Hscores. unfold s3. simpl. by rewrite Hs.
  - intros f Hf Hskip. apply (Hall f Hf). simpl in Hskip. by rewrite <- Hs.
Qed.

Lemma findSimilarNotes_again_witness :
  let a := example_file "a.md" 50 in
  let b := example_file "b.md" 50 in
  let c := example_file "c.md" 50 in
  let h := sample_host [a; b; c]
             [doc "a.md" "the cat sat"; doc "b.md" "the dog sat";
              doc "c.md" "quantum entanglement theory"] Rejected in
  let st := sample_state (with_floor 0.5%float DEFAULT_SETTINGS) ∅ in
  let results := [ {| file := b; score := 0x1.5555555555557p-1 |} ] in
  let st1 := (findSimilarNotes h (Some (Some a)) st).2 in
  (findSimilarNotes h (Some (Some a)) st = (Shown results, st1)
   /\ NoDup (path <$> getMarkdownFiles h)
   /\ (forall f n, f = a \/ f ∈ getMarkdownFiles h -> mtime f <= dateNow h n))
  /\ findSimilarNotes h (Some (Some a)) st1 = (Shown results, log_notice NoticeFinding st1).
Proof.
  intros a b c h st results st1.
  assert (H1 : findSimilarNotes h (Some (Some a)) st = (Shown results, st1))
    by (by vm_compute).
  assert (H2 : NoDup (path <$> getMarkdownFiles h)).
  { compute_done. }
  assert (H3 : forall f n, f = a \/ f ∈ getMarkdownFiles h -> mtime f <= dateNow h n).
  { intros f n Hf. assert (Hm : mtime f = 50).
    { destruct Hf as [->|Hf]; [done|]. simpl in Hf.
      rewrite !elem_of_cons, elem_of_nil in Hf. by destruct Hf as [->|[->|[->|[]]]]. }
    rewrite Hm. simpl. lia. }
  split; [exact (conj H1 (conj H2 H3))|].
  exact (findSimilarNotes_again h a st st1 results H1 H2 H3).
Defined.

(** ** Remote failures never leave [getEmbedding] *)

Lemma getLocalEmbedding_only_TypeError (text : jsstring) (err : error) :
  getLocalEmbedding text = Err err -> err = TypeError.
Proof.
  intros H. pose proof (getLocalEmbedding_with_in_bounds commonConcepts text) as Hb.
  fold getLocalEmbedding in Hb. by rewrite H in Hb.
Qed.

(** X10.  [getEmbedding] returns the remote vector when the remote embedder
    is selected with a usable key and the service answers with values; in
    every other case (local backend, no usable key, a rejected fetch, an
    error status, a malformed answer) it returns what the local embedder
    returns.  It calls [fetch] once when the remote embedder is tried and
    never otherwise, so nothing is retried; and the only exception that can
    leave it is the local embedder's [TypeError], never a remote error. *)
Theorem getEmbedding_recovers_remote_failures (h : Host) (text : jsstring) (st : state) :
  let s := settings st in
  let response := fetchEmbedding h (fetches st) (apiKey s) (request_text text) in
  (getEmbedding h text st).1
    = (if remote_ready s then
         match response with
         | Values values => Ok values
         | _ => getLocalEmbedding text
         end
       else getLocalEmbedding text)
  /\ fetches (getEmbedding h text st).2
     = (if remote_ready s then S (fetches st) else fetches st)
  /\ (forall err, (getEmbedding h text st).1 = Err err -> err = TypeError).
Proof.
  cbn zeta.
  assert (H : (getEmbedding h text st).1
    = (if remote_ready (settings st) then
         match fetchEmbedding h (fetches st) (apiKey (settings st)) (request_text text) with
         | Values values => Ok values
         | _ => getLocalEmbedding text
         end
       else getLocalEmbedding text)
  /\ fetches (getEmbedding h text st).2
     = (if remote_ready (settings st) then S (fetches st) else fetches st)).
  { unfold getEmbedding, remote_ready, mbind, M_bind, modify, gets, try_catch, lift, Notice.
    cbn [fst snd]. change (settings (count_embed st)) with (settings st).
    destruct (useGeminiEmbeddings (settings st) && nonempty (apiKey (settings st)));
      [|done].
    unfold getGeminiEmbedding, mbind, M_bind, gets, Notice, modify, throw, fetch, mret, M_ret.
    change (settings (count_embed st)) with (settings st).
    change (fetches (count_embed st)) with (fetches st).
    destruct (key_missing (apiKey (settings st))); [done|].
    cbn [andb negb fst snd].
    change (fetches (count_embed st)) with (fetches st).
    by destruct (fetchEmbedding h (fetches st) (apiKey (settings st)) (request_text text)). }
  destruct H as [H1 H2]. split; [exact H1|]. split; [exact H2|].
  intros err. rewrite H1.
  destruct (remote_ready (settings st));
    [destruct (fetchEmbedding h (fetches st) (apiKey (settings st)) (request_text text))|];
    try done; apply getLocalEmbedding_only_TypeError.
Qed.

Example getEmbedding_remote_samples :
  let st := sample_state (with_backend true (str "key") DEFAULT_SETTINGS) ∅ in
  let host r := sample_host [] [] r in
  (getEmbedding (host (Values [1; 2; 3]%float)) (str "time") st).1 = Ok [1; 2; 3]%float
  /\ (getEmbedding (host (NotOk 429)) (str "time") st).1 = getLocalEmbedding (str "time")
  /\ notices (getEmbedding (host (NotOk 429)) (str "time") st).2
     = [NoticeFallback; NoticeApiError 429]
  /\ (getEmbedding (host Rejected) (str "time") st).1 = getLocalEmbedding (str "time")
  /\ (getEmbedding (host Malformed) (str "time") st).1 = getLocalEmbedding (str "time").
Proof. by vm_compute. Qed.

(** ** When the local embedder throws *)

Lemma count_tokens_keys_inv (tokens : list jsstring) (acc : object float) (k : jsstring) :
  k ∈ (fold_left count_token tokens acc).*1 -> k ∈ tokens \/ k ∈ acc.*1.
Proof.
  revert acc. induction tokens as [|t tokens IH]; intros acc; simpl; [tauto|].
  intros H. apply IH in H. unfold count_token in H. rewrite set_prop_keys in H.
  rewrite elem_of_cons. tauto.
Qed.

Lemma Object_keys_subset {A} (o : object A) (k : jsstring) :
  k ∈ Object_keys o -> k ∈ o.*1.
Proof.
  unfold Object_keys. rewrite elem_of_app, elem_of_sort_by, !list_elem_of_filter. tauto.
Qed.

Lemma get_prop_not_inherited {A} (o : object A) (k : jsstring) :
  k <> str "constructor" -> get_prop o k <> Inherited.
Proof.
  intros Hk. unfold get_prop. destruct (own o k); [done|].
  unfold jsstring_eqb. by rewrite bool_decide_eq_false_2.
Qed.

Lemma for_each_Ok {A} (body : list float -> A -> res (list float)) (l : list A)
    (vector : list float) :
  (forall a v, a ∈ l -> length v = 200%nat ->
     exists v', body v a = Ok v' /\ length v' = 200%nat) ->
  length vector = 200%nat ->
  exists v', for_each body l vector = Ok v' /\ length v' = 200%nat.
Proof.
  revert vector. induction l as [|a l IH]; intros vector Hbody Hlen; simpl; [eauto|].
  destruct (Hbody a vector (list_elem_of_here _ _) Hlen) as (v1 & -> & Hv1). simpl.
  apply IH; [|done]. intros b v Hb. apply Hbody. by right.
Qed.

Lemma for_each_add_at_Ok {A} (slot : A -> Z) (amount : A -> float) (l : list A)
    (vector : list float) :
  (forall a, 0 <= slot a < 200) -> length vector = 200%nat ->
  exists v', for_each (fun v a => add_at v (slot a) (amount a)) l vector = Ok v'
             /\ length v' = 200%nat.
Proof.
  intros Hslot. apply for_each_Ok. intros a v _ Hv. by apply add_at_in_range.
Qed.

Lemma cross_features_Ok concepts c2e tokenFreq vector token :
  token <> str "constructor" -> length vector = 200%nat ->
  exists v', cross_features concepts c2e tokenFreq vector token = Ok v'
             /\ length v' = 200%nat.
Proof.
  intros Htok Hlen. unfold cross_features.
  pose proof (get_prop_not_inherited c2e token Htok) as H1.
  pose proof (get_prop_not_inherited concepts token Htok) as H2.
  destruct (get_prop c2e token) as [equivs1| |]; [|done|];
    destruct (get_prop concepts token) as [equivs2| |]; try done;
    destruct (test is_chinese token); simpl; eauto;
    apply for_each_add_at_Ok; try done;
    intros e; pose proof (hash_slot_range e); lia.
Qed.

(** X11.  The local embedder throws exactly on the texts that have the word
    [constructor] among their tokens (in any letter case); the exception is a
    [TypeError].  On every other text it returns a vector of 200
    components. *)
Theorem getLocalEmbedding_throws_iff (text : jsstring) :
  (getLocalEmbedding text = Err TypeError <-> str "constructor" ∈ tokenize text)
  /\ (str "constructor" ∉ tokenize text ->
      exists v, getLocalEmbedding text = Ok v /\ length v = 200%nat).
Proof.
  assert (Hok : str "constructor" ∉ tokenize text ->
            exists v, getLocalEmbedding text = Ok v /\ length v = 200%nat).
  { intros Hno. unfold getLocalEmbedding, getLocalEmbedding_with.
    set (tokenFreq := count_tokens (tokenize text)).
    assert (Hkeys : forall k, k ∈ Object_keys tokenFreq -> k <> str "constructor").
    { intros k Hk ->. apply Hno. apply Object_keys_subset in Hk.
      apply count_tokens_keys_inv in Hk as [Hk|Hk]; [done|]. by apply elem_of_nil in Hk. }
    destruct (for_each_add_at_Ok token_slot (freq tokenFreq) (Object_keys tokenFreq)
                (repeat 0%float 200)) as (v1 & -> & Hv1).
    { intros token. pose proof (token_slot_range token).
      destruct (test is_cjk token); lia. }
    { by rewrite repeat_length. }
    cbn [mbind res_bind]. unfold addCrossLanguageFeatures_with.
    destruct (reverse_table commonConcepts) as [c2e|e] eqn:Hrev;
      [|by vm_compute in Hrev].
    cbn [mbind res_bind].
    destruct (for_each_Ok (cross_features commonConcepts c2e tokenFreq)
                (Object_keys tokenFreq) v1) as (v2 & -> & Hv2); [|done|].
    { intros token v Htoken Hv. apply cross_features_Ok; [by apply Hkeys|done]. }
    cbn [mbind res_bind]. eexists. split; [done|]. by rewrite length_normalize. }
  split; [|exact Hok]. split.
  - intros Herr. destruct (decide (str "constructor" ∈ tokenize text)) as [|Hno]; [done|].
    destruct (Hok Hno) as (v & Hv & _). congruence.
  - apply getLocalEmbedding_constructor.
Qed.

Example getLocalEmbedding_throw_samples :
  getLocalEmbedding (str "A Constructor, again") = Err TypeError
  /\ (exists v, getLocalEmbedding (str "constructors and reconstructor") = Ok v).
Proof. split; [by vm_compute|]. eexists. by vm_compute. Qed.

(** ** A candidate the local embedder throws on *)

Lemma getNoteEmbedding_local_throw (h : Host) (g : TFile) (st : state) (content : jsstring) :
  useGeminiEmbeddings (settings st) = false ->
  cached g st = None ->
  vaultRead h (path g) = Some content ->
  str "constructor" ∈ tokenize content ->
  (getNoteEmbedding h g st).1 = Err TypeError.
Proof.
  intros Hlocal Hc Hread Htok. rewrite (getNoteEmbedding_miss h g st Hc), Hread.
  pose proof (getEmbedding_local_backend h content (log_read (path g) st) Hlocal) as He.
  rewrite (getLocalEmbedding_constructor content Htok) in He.
  by destruct (getEmbedding h content (log_read (path g) st)) as [[e|err] st1];
    simpl in He; [|injection He as ->].
Qed.

Lemma score_files_aborts_when (h : Host) (currentFile : TFile) (query : list float)
    (f : TFile) (files : list TFile) (acc : list SimilarNoteResult) (st : state) :
  (forall g st', path g = path f -> settings st' = settings st -> cached g st' = None ->
     exists e, (getNoteEmbedding h g st').1 = Err e) ->
  f ∈ files -> skipped currentFile (settings st) f = false -> cached f st = None ->
  exists e, (score_files h currentFile query files acc st).1 = Err e.
Proof.
  intros Hfail. revert acc st Hfail.
  induction files as [|g files IH]; intros acc st Hfail Hin Hskip Hc.
  - by apply elem_of_nil in Hin.
  - rewrite score_files_cons.
    destruct (jsstring_eqb (path g) (path currentFile) || shouldIgnoreFile (settings st) g)
      eqn:Hg.
    + apply elem_of_cons in Hin as [->|Hin]; [unfold skipped in Hskip; congruence|].
      by apply IH.
    + unfold mbind, M_bind.
      pose proof (getNoteEmbedding_settings h g st) as Hs.
      destruct (getNoteEmbedding h g st) as [[e|err] st1] eqn:Hrun; simpl in *; [|eauto].
      assert (Hc1 : cached f st1 = None /\ g <> f).
      { destruct (decide (path g = path f)) as [Hp|Hp].
        - destruct (cached g st) as [e0|] eqn:Hcg.
          + rewrite (getNoteEmbedding_hit h g st e0 Hcg) in Hrun. injection Hrun as <- <-.
            split; [done|]. intros ->. congruence.
          + destruct (Hfail g st Hp eq_refl Hcg) as [err Herr]. by rewrite Hrun in Herr.
        - split; [|congruence]. rewrite <- Hc. apply cached_unchanged.
          pose proof (getNoteEmbedding_other_paths h g st (path f)) as Ho.
          rewrite Hrun in Ho. apply Ho. congruence. }
      destruct Hc1 as [Hc1 Hne].
      apply elem_of_cons in Hin as [->|Hin]; [done|].
      apply IH; [|done|by rewrite Hs|done].
      intros g' st' Hp Hs'. apply Hfail; [done|congruence].
Qed.

(** X12.  Under the local backend one note with the word [constructor] stops
    the whole search: when a candidate (a listed file that is neither the
    current file nor ignored) has no fresh cache entry and its text has the
    token [constructor], [findSimilarNotes] ends in its [catch] branch with
    the error notice and shows no results, whatever the other notes are. *)
Theorem findSimilarNotes_aborts_on_throwing_candidate (h : Host) (currentFile f : TFile)
    (st : state) (content : jsstring) :
  useGeminiEmbeddings (settings st) = false ->
  f ∈ getMarkdownFiles h ->
  skipped currentFile (settings st) f = false ->
  ~ fresh f st ->
  vaultRead h (path f) = Some content ->
  str "constructor" ∈ tokenize content ->
  exists e older,
    (findSimilarNotes h (Some (Some currentFile)) st).1 = Failed e
    /\ notices (findSimilarNotes h (Some (Some currentFile)) st).2 = NoticeError :: older.
Proof.
  intros Hlocal Hin Hskip Hstale Hread Htok. apply cached_None in Hstale.
  unfold findSimilarNotes, find_similar, mbind, M_bind.
  set (st0 := log_notice NoticeFinding st).
  pose proof (getNoteEmbedding_settings h currentFile st0) as Hs.
  pose proof (getNoteEmbedding_other_paths h currentFile st0 (path f)) as Ho.
  destruct (getNoteEmbedding h currentFile st0) as [[query|err] st1]; simpl in *; [|eauto].
  destruct (score_files_aborts_when h currentFile query f (getMarkdownFiles h) [] st1)
    as [e Hfail]; [|done|by rewrite Hs| |].
  - intros g st' Hp Hs' Hc. exists TypeError.
    apply (getNoteEmbedding_local_throw h g st' content); [congruence|done|congruence|done].
  - rewrite <- Hstale. apply cached_unchanged. apply Ho.
    apply skipped_false in Hskip as [Hp _]. done.
  - destruct (score_files h currentFile query (getMarkdownFiles h) [] st1) as [[r|e'] st2];
      simpl in *; [done|eauto].
Qed.

Lemma findSimilarNotes_aborts_on_throwing_candidate_witness :
  let a := example_file "a.md" 50 in
  let b := example_file "b.md" 50 in
  let c := example_file "c.md" 50 in
  let h := sample_host [a; b; c]
             [doc "a.md" "the cat sat"; doc "b.md" "the dog sat";
              doc "c.md" "a class constructor"] Rejected in
  let st := sample_state (with_floor 0.5%float DEFAULT_SETTINGS) ∅ in
  (useGeminiEmbeddings (settings st) = false
   /\ c ∈ getMarkdownFiles h
   /\ skipped a (settings st) c = false
   /\ ~ fresh c st
   /\ vaultRead h (path c) = Some (str "a class constructor")
   /\ str "constructor" ∈ tokenize (str "a class constructor"))
  /\ exists e older,
       (findSimilarNotes h (Some (Some a)) st).1 = Failed e
       /\ notices (findSimilarNotes h (Some (Some a)) st).2 = NoticeError :: older.
Proof.
  intros a b c h st.
  assert (H1 : useGeminiEmbeddings (settings st) = false) by reflexivity.
  assert (H2 : c ∈ getMarkdownFiles h) by (simpl; rewrite !elem_of_cons; tauto).
  assert (H3 : skipped a (settings st) c = false) by reflexivity.
  assert (H4 : ~ fresh c st).
  { intros (item & Hitem & _). simpl in Hitem. by rewrite lookup_empty in Hitem. }
  assert (H5 : vaultRead h (path c) = Some (str "a class constructor")) by reflexivity.
  assert (H6 : str "constructor" ∈ tokenize (str "a class constructor")).
  { compute_done. }
  split; [exact (conj H1 (conj H2 (conj H3 (conj H4 (conj H5 H6)))))|].
  exact (findSimilarNotes_aborts_on_throwing_candidate h a c st _ H1 H2 H3 H4 H5 H6).
Defined.

Example findSimilarNotes_throwing_candidate_sample :
  let a := example_file "a.md" 50 in
  let b := example_file "b.md" 50 in
  let c := example_file "c.md" 50 in
  let h := sample_host [a; b; c]
             [doc "a.md" "the cat sat"; doc "b.md" "the dog sat";
              doc "c.md" "a class constructor"] Rejected in
  let st := sample_state (with_floor 0.5%float DEFAULT_SETTINGS) ∅ in
  (findSimilarNotes h (Some (Some a)) st).1 = Failed TypeError.
Proof. by vm_compute. Qed.

(** ** Texts without tokens *)

Lemma match_runs_nil (p : Z -> bool) (s cur : jsstring) :
  match_runs p s cur = [] <-> cur = [] /\ Forall (fun c => p c = false) s.
Proof.
  revert cur. induction s as [|c s IH]; intros cur; simpl.
  - destruct cur; split; try done. by intros [? _].
  - destruct (p c) eqn:Hp.
    + rewrite IH. split; [by intros [? _]|]. intros [_ H]. inversion H; congruence.
    + destruct cur as [|x cur].
      * rewrite IH. split; intros [? H]; (split; [done|]).
        -- by constructor.
        -- by inversion H.
      * split; [done|]. by intros [? _].
Qed.

Lemma match_units_nil (p : Z -> bool) (s : jsstring) :
  match_units p s = [] <-> Forall (fun c => p c = false) s.
Proof.
  unfold match_units. induction s as [|c s IH]; simpl; [by split|].
  rewrite filter_cons. destruct (decide (Is_true (p c))) as [Hp|Hp].
  - apply Is_true_true in Hp. split; [done|]. intros H. inversion H; congruence.
  - apply Is_true_false in Hp. simpl in IH. rewrite IH.
    split; intros H; [by constructor|by inversion H].
Qed.

Lemma tokenize_nil (text : jsstring) : tokenize text = [] <-> wordless text.
Proof.
  unfold tokenize, wordless. split.
  - intros H. apply app_eq_nil in H as [H1 H2].
    apply match_runs_nil in H1 as [_ H1]. by apply match_units_nil in H2.
  - intros [H1 H2]. apply app_nil. split.
    + by apply match_runs_nil.
    + by apply match_units_nil.
Qed.

Lemma sum_squares_zeros (n : nat) : sum_squares (repeat 0%float n) = 0%float.
Proof.
  apply sum_squares_zero. induction n as [|n IH]; simpl; constructor; [by left|done].
Qed.

(** X13.  A note without a single word or CJK character (empty, or only
    punctuation, spaces or symbols) gets the zero vector of length 200 from
    [getLocalEmbedding]; [cosineSimilarity] of that vector with any vector,
    on either side, is exactly [0]. *)
Theorem getLocalEmbedding_wordless (text : jsstring) :
  wordless text ->
  getLocalEmbedding text = Ok (repeat 0%float 200)
  /\ forall other,
       cosineSimilarity (repeat 0%float 200) other = 0%float
       /\ cosineSimilarity other (repeat 0%float 200) = 0%float.
Proof.
  intros Hw. apply tokenize_nil in Hw. split.
  - unfold getLocalEmbedding, getLocalEmbedding_with. rewrite Hw. by vm_compute.
  - intros other. unfold cosineSimilarity.
    split.
    + destruct (Nat.eqb_spec (length (repeat 0%float 200)) (length other)) as [Hlen|Hlen];
        simpl negb; cbv iota; [|done].
      destruct (cosine_norms (repeat 0%float 200) other 0 0 0 Hlen) as [Ha _].
      destruct (fold_left cosine_step (combine (repeat 0%float 200) other) (0, 0, 0)%float)
        as [[d na] nb].
      simpl fst in Ha; simpl snd in Ha. fold (sum_squares (repeat 0%float 200)) in Ha.
      rewrite sum_squares_zeros in Ha. by subst na.
    + destruct (Nat.eqb_spec (length other) (length (repeat 0%float 200))) as [Hlen|Hlen];
        simpl negb; cbv iota; [|done].
      destruct (cosine_norms other (repeat 0%float 200) 0 0 0 Hlen) as [_ Hb].
      destruct (fold_left cosine_step (combine other (repeat 0%float 200)) (0, 0, 0)%float)
        as [[d na] nb].
      simpl snd in Hb. fold (sum_squares (repeat 0%float 200)) in Hb.
      rewrite sum_squares_zeros in Hb. subst nb. by rewrite orb_true_r.
Qed.

Lemma getLocalEmbedding_wordless_witness :
  wordless (str "?! ... --")
  /\ (getLocalEmbedding (str "?! ... --") = Ok (repeat 0%float 200)
      /\ forall other,
           cosineSimilarity (repeat 0%float 200) other = 0%float
           /\ cosineSimilarity other (repeat 0%float 200) = 0%float).
Proof.
  assert (H : wordless (str "?! ... --")).
  { apply tokenize_nil. by vm_compute. }
  split; [exact H|]. exact (getLocalEmbedding_wordless (str "?! ... --") H).
Defined.

(** ** Sweeps of the cache *)

Lemma purge_subseteq (now expiration : Z) (m : gmap jsstring EmbeddingCacheItem) :
  purge now expiration m ⊆ m.
Proof.
  apply map_subseteq_spec. intros p item. rewrite purge_lookup.
  destruct (m !! p) as [item'|]; [|done]. by case_bool_decide.
Qed.

Lemma purge_purge (now1 now2 expiration : Z) (m : gmap jsstring EmbeddingCacheItem) :
  now1 <= now2 ->
  purge now2 expiration (purge now1 expiration m) = purge now2 expiration m.
Proof.
  intros Hle. apply map_eq. intros p. rewrite !purge_lookup.
  destruct (m !! p) as [item|]; [|done].
  repeat case_bool_decide; try done; lia.
Qed.

(** X14.  [cleanEmbeddingCache] only removes: the cache after the sweep is a
    sub-map of the cache before it, the settings are untouched, and a file
    whose entry is reused after the sweep was reused, with the same vector,
    before it.  With a clock that does not go backwards, two sweeps in a row
    leave what one sweep at the later time leaves. *)
Theorem cleanEmbeddingCache_only_removes (h : Host) (st : state) :
  let st1 := (cleanEmbeddingCache h st).2 in
  let st2 := (cleanEmbeddingCache h st1).2 in
  embeddings st1 ⊆ embeddings st
  /\ settings st1 = settings st
  /\ (forall f e, cached f st1 = Some e -> cached f st = Some e)
  /\ (dateNow h (clockReads st) <= dateNow h (S (clockReads st)) ->
      embeddings st2
        = purge (dateNow h (S (clockReads st))) (expiration_ms (settings st)) (embeddings st)).
Proof.
  simpl. split; [apply purge_subseteq|]. split; [done|]. split.
  - intros f e. rewrite !cached_Some. intros (item & Hitem & Hm & ->).
    exists item. split; [|done].
    by apply (lookup_weaken _ _ _ _ Hitem), purge_subseteq.
  - intros Hle. by apply purge_purge.
Qed.
